(** * A Bloom filter with double hashing: the Go package [bloom]

    Shallow embedding of [bloom/bloom.go].  A [uint64] is a [Z] in
    [0, 2^64) with the wrap-around of every operation written out, the
    bitset [[]uint64] is a [list Z] read and updated by index, the
    pointer receiver [bf *BloomFilter] is threaded as explicit state, and
    a Go [panic] is a result of its own.  [float64] is the kernel's
    binary64 type. *)

From Stdlib Require Import ZArith Lia Bool List Floats.
From Stdlib Require Import Strings.String Strings.Byte Numbers.DecimalString.
From Stdlib Require DecimalPos DecimalN.
From Stdlib Require Import Reals Lra.
From stdpp Require Import base list.

Local Open Scope Z_scope.

(** ** Unsigned 64-bit words *)

Module U64.

Definition modulus : Z := 2 ^ 64.

Definition wrap (z : Z) : Z := z mod modulus.

(** [a + b], [a * b] and [a << s] of Go on [uint64] operands. *)
Definition add (a b : Z) : Z := wrap (a + b).
Definition mul (a b : Z) : Z := wrap (a * b).
Definition shl (a s : Z) : Z := wrap (Z.shiftl a s).

Definition in_range (z : Z) : Prop := 0 <= z < modulus.

End U64.

(** ** Hashing helpers *)

Definition fnv64Offset : Z := 14695981039346656037.
Definition fnv64Prime : Z := 1099511628211.

(** The constant [0x9e3779b97f4a7c15]: the salt of [hash128] and the
    replacement of a zero [h2] in [Add] and [MightContain]. *)
Definition salt : Z := 0x9e3779b97f4a7c15.
Definition h2_fallback : Z := 0x9e3779b97f4a7c15.

Definition byte_val (b : byte) : Z := Z.of_N (Byte.to_N b).

(** The body of [for _, b := range data { hash ^= uint64(b); hash *= fnv64Prime }]. *)
Definition fnv_step (hash : Z) (b : byte) : Z :=
  U64.mul (Z.lxor hash (byte_val b)) fnv64Prime.

Definition fnv64a (data : list byte) : Z :=
  fold_left fnv_step data fnv64Offset.

Definition fnv64aSalted (data : list byte) (salt : Z) : Z :=
  fold_left fnv_step data (Z.lxor fnv64Offset salt).

Definition hash128 (data : list byte) : Z * Z :=
  let h1 := fnv64a data in
  let h2 := fnv64aSalted data salt in
  (h1, h2).

Definition bytes (s : string) : list byte := list_byte_of_string s.

(** ** Panics and outcomes *)

(** One constructor for each [panic] call of the package, and one for the
    run-time panic of an out-of-range slice index. *)
Inductive panic : Type :=
| panic_m_zero
| panic_k_zero
| panic_n_zero
| panic_fpRate
| panic_not_initialized
| panic_index_out_of_range (index len : Z).

Definition panic_message (p : panic) : string :=
  match p with
  | panic_m_zero => "bloom: m (no. of bits) must be > 0"
  | panic_k_zero => "bloom: k (no. of hash fucntions) must be > 0"
  | panic_n_zero => "bloom: n (expected insertions) must be > 0"
  | panic_fpRate => "bloom: fpRate must be between 0 and 1 (exclusive)"
  | panic_not_initialized => "bloom: filter not initialized"
  | panic_index_out_of_range _ _ => "runtime error: index out of range"
  end.

(** The error kinds the design document names. *)
Inductive error_kind : Type := InvalidParameter | NotInitialized | RuntimeError.

Definition kind_of (p : panic) : error_kind :=
  match p with
  | panic_m_zero | panic_k_zero | panic_n_zero | panic_fpRate => InvalidParameter
  | panic_not_initialized => NotInitialized
  | panic_index_out_of_range _ _ => RuntimeError
  end.

Inductive outcome (A : Type) : Type :=
| Ret (a : A)
| Panic (p : panic).
Arguments Ret {A} a.
Arguments Panic {A} p.

Definition fails_with {A : Type} (o : outcome A) (e : error_kind) : Prop :=
  exists p, o = Panic p /\ kind_of p = e.

(** ** The filter *)

Record BloomFilter : Type := mkBloomFilter {
  m : Z;             (* no. of bits *)
  k : Z;             (* no. of hash functions *)
  bits : list Z      (* bitset storage *)
}.

Definition with_bits (bf : BloomFilter) (ws : list Z) : BloomFilter :=
  {| m := m bf; k := k bf; bits := ws |}.

(** [make([]uint64, n)]: [n] zero words.  Allocation itself is taken to
    succeed for every length. *)
Definition make (n : Z) : list Z := replicate (Z.to_nat n) 0.

Definition New (m k : Z) : outcome BloomFilter :=
  if m =? 0 then Panic panic_m_zero
  else if k =? 0 then Panic panic_k_zero
  else
    let wordCount := U64.add m 63 / 64 in
    Ret {| m := m; k := k; bits := make wordCount |}.

(** ** Methods: state passing over the receiver

    A method on [bf *BloomFilter] is a function from the filter before
    the call to an outcome and the filter after it; a panic leaves the
    filter as it was when the panic was raised. *)

Definition M (A : Type) : Type := BloomFilter -> outcome A * BloomFilter.

Definition ret {A : Type} (a : A) : M A := fun bf => (Ret a, bf).

Definition raise {A : Type} (p : panic) : M A := fun bf => (Panic p, bf).

Definition bind {A B : Type} (c : M A) (f : A -> M B) : M B :=
  fun bf =>
    match c bf with
    | (Ret a, bf') => f a bf'
    | (Panic p, bf') => (Panic p, bf')
    end.

Definition get : M BloomFilter := fun bf => (Ret bf, bf).

Definition put_bits (ws : list Z) : M unit := fun bf => (Ret tt, with_bits bf ws).

Declare Scope go_scope.
Delimit Scope go_scope with go.
Notation "x <- c ;; f" := (bind c (fun x => f))
  (at level 100, c at next level, right associativity) : go_scope.
Notation "c ;;; f" := (bind c (fun _ => f))
  (at level 100, right associativity) : go_scope.
Local Open Scope go_scope.

(** Go's bounds check of [bf.bits[i]]: the index is compared with
    [len(bf.bits)] before the element is touched. *)
Definition in_bounds (i : Z) (ws : list Z) : bool :=
  (0 <=? i) && (i <? Z.of_nat (length ws)).

(** [bf.bits[i]] as a value. *)
Definition read_word (i : Z) : M Z :=
  bf <- get ;;
  if in_bounds i (bits bf) then ret (default 0 (bits bf !! Z.to_nat i))
  else raise (panic_index_out_of_range i (Z.of_nat (length (bits bf)))).

(** [bf.bits[i] = w]. *)
Definition write_word (i w : Z) : M unit :=
  bf <- get ;;
  if in_bounds i (bits bf) then put_bits (<[Z.to_nat i := w]> (bits bf))
  else raise (panic_index_out_of_range i (Z.of_nat (length (bits bf)))).

Definition setBit (pos : Z) : M unit :=
  let wordIndex := pos / 64 in
  let bitIndex := pos mod 64 in
  let mask := U64.shl 1 bitIndex in
  w <- read_word wordIndex ;;
  write_word wordIndex (Z.lor w mask).

Definition getBit (pos : Z) : M bool :=
  let wordIndex := pos / 64 in
  let bitIndex := pos mod 64 in
  let mask := U64.shl 1 bitIndex in
  w <- read_word wordIndex ;;
  ret (negb (Z.land w mask =? 0)).

(** The position probed at step [i]: [(h1 + i*h2) % bf.m], the sum and
    the product in [uint64]. *)
Definition probe (m h1 h2 i : Z) : Z := U64.add h1 (U64.mul i h2) mod m.

(** [for i := uint64(0); i < bf.k; i++ { ... }] runs its body for
    [i = 0, ..., k-1]; [n] counts the iterations that remain, and [i + 1]
    cannot wrap because [i < k]. *)
Fixpoint Add_loop (n : nat) (i h1 h2 : Z) : M unit :=
  match n with
  | O => ret tt
  | S n' =>
      bf <- get ;;
      let pos := probe (m bf) h1 h2 i in
      setBit pos ;;;
      Add_loop n' (i + 1) h1 h2
  end.

Definition Add (data : list byte) : M unit :=
  bf <- get ;;
  if (m bf =? 0) || (k bf =? 0) then raise panic_not_initialized
  else
    let '(h1, h2) := hash128 data in
    let h2 := if h2 =? 0 then h2_fallback else h2 in
    Add_loop (Z.to_nat (k bf)) 0 h1 h2.

Fixpoint MightContain_loop (n : nat) (i h1 h2 : Z) : M bool :=
  match n with
  | O => ret true
  | S n' =>
      bf <- get ;;
      let pos := probe (m bf) h1 h2 i in
      b <- getBit pos ;;
      if negb b then ret false
      else MightContain_loop n' (i + 1) h1 h2
  end.

Definition MightContain (data : list byte) : M bool :=
  bf <- get ;;
  if (m bf =? 0) || (k bf =? 0) then raise panic_not_initialized
  else
    let '(h1, h2) := hash128 data in
    let h2 := if h2 =? 0 then h2_fallback else h2 in
    MightContain_loop (Z.to_nat (k bf)) 0 h1 h2.

(** [for i := range bf.bits { bf.bits[i] = 0 }]: the length is read once,
    then every index below it is written. *)
Fixpoint Reset_loop (n : nat) (i : Z) : M unit :=
  match n with
  | O => ret tt
  | S n' => write_word i 0 ;;; Reset_loop n' (i + 1)
  end.

Definition Reset : M unit :=
  bf <- get ;;
  Reset_loop (length (bits bf)) 0.

(** [%d] of [fmt.Sprintf] on a [uint64]. *)
Definition decimal (z : Z) : string :=
  NilZero.string_of_uint (N.to_uint (Z.to_N z)).

Definition Info : M string :=
  bf <- get ;;
  ret ("BloomFilter{m=" ++ decimal (m bf) ++ " bits, k=" ++ decimal (k bf) ++ "}")%string.

(** ** Construction from an estimate *)

(** [math.Ln2] as a [float64]. *)
Definition math_Ln2 : float := 0x1.62e42fefa39efp-1%float.

(** [float64(n)] of a [uint64]: the nearest binary64 value, ties to even. *)
Definition float64_of_uint64 (n : Z) : float :=
  SF2Prim (binary_normalize prec emax n 0 false).

Section Estimates.

(** [math.Log] and [math.Ceil] belong to Go's library and the conversion
    [uint64(x)] of a [float64] to the compiler (its result is
    implementation-dependent when [x] is not representable); the
    constructor is embedded over any choice of the three. *)
Variables (math_Log math_Ceil : float -> float).
Variable uint64_of_float64 : float -> Z.

Definition NewWithEstimates (n : Z) (fpRate : float) : outcome BloomFilter :=
  if n =? 0 then Panic panic_n_zero
  else if (fpRate <=? 0)%float || (1 <=? fpRate)%float then Panic panic_fpRate
  else
    let ln2 := math_Ln2 in
    let mFloat := (- float64_of_uint64 n * math_Log fpRate / (ln2 * ln2))%float in
    let m := uint64_of_float64 (math_Ceil mFloat) in
    let m := if m =? 0 then 1 else m in
    let kFloat := (float64_of_uint64 m / float64_of_uint64 n * ln2)%float in
    let k := uint64_of_float64 (math_Ceil kFloat) in
    let k := if k =? 0 then 1 else k in
    New m k.

End Estimates.

(** ** Filters a program can hold

    A filter comes from [New] (on which [NewWithEstimates] ends) and is
    then only touched through its methods. *)

Inductive call : Type :=
| CallAdd (data : list byte)
| CallMightContain (data : list byte)
| CallReset
| CallInfo.

Definition after (c : call) (bf : BloomFilter) : BloomFilter :=
  match c with
  | CallAdd data => snd (Add data bf)
  | CallMightContain data => snd (MightContain data bf)
  | CallReset => snd (Reset bf)
  | CallInfo => snd (Info bf)
  end.

Inductive constructed : BloomFilter -> Prop :=
| constructed_New m0 k0 bf :
    U64.in_range m0 -> U64.in_range k0 ->
    New m0 k0 = Ret bf -> constructed bf
| constructed_call c bf :
    constructed bf -> constructed (after c bf).

(** ** The probe sequence, as the design document words it *)

(** [probe_i = (h1 + i*h2) mod m] for [i = 0 .. k-1], with the fixed odd
    constant in place of a zero [h2]. *)
Definition probe_positions (bf : BloomFilter) (data : list byte) : list Z :=
  let '(h1, h2) := hash128 data in
  let h2 := if h2 =? 0 then h2_fallback else h2 in
  map (probe (m bf) h1 h2) (seqZ 0 (k bf)).

(** Set every position of a list, in order. *)
Fixpoint set_each (ps : list Z) : M unit :=
  match ps with
  | [] => ret tt
  | p :: ps' => setBit p ;;; set_each ps'
  end.

(** Test the positions of a list in order and stop at the first unset one. *)
Fixpoint test_each (ps : list Z) : M bool :=
  match ps with
  | [] => ret true
  | p :: ps' => b <- getBit p ;; if b then test_each ps' else ret false
  end.

(** The guard both methods open with. *)
Definition when_initialized {A : Type} (c : M A) : M A :=
  bf <- get ;;
  if (m bf =? 0) || (k bf =? 0) then raise panic_not_initialized else c.

(** The bit of a word list at a position, read without a bounds check. *)
Definition bit_at (ws : list Z) (pos : Z) : bool :=
  Z.testbit (default 0 (ws !! Z.to_nat (pos / 64))) (pos mod 64).

(** Every probed word index is inside the word list. *)
Definition covers (bf : BloomFilter) : Prop :=
  0 < m bf <= 64 * Z.of_nat (length (bits bf)).

(** A filter whose word list holds all [m] positions and that probes at
    least once. *)
Definition usable (bf : BloomFilter) : Prop := covers bf /\ 0 < k bf.

(** The largest [m] for which [m + 63] does not wrap. *)
Definition max_exact_m : Z := U64.modulus - 64.

(** The filter after a sequence of method calls, oldest first. *)
Definition after_all (cs : list call) (bf : BloomFilter) : BloomFilter :=
  fold_left (fun s c => after c s) cs bf.

(** A word count [w] is the least one whose bits hold [m] positions. *)
Definition minimal_word_count (m w : Z) : Prop :=
  m <= w * 64 /\ forall w', 0 <= w' -> m <= w' * 64 -> w <= w'.

(** The filter [New(18446744073709551615, 1)] returns. *)
Definition wrapped_filter : BloomFilter :=
  {| m := U64.modulus - 1; k := 1; bits := [] |}.

(** A word list with every word zero. *)
Definition zeroed (bf : BloomFilter) : Prop :=
  bits bf = replicate (length (bits bf)) 0.

(** The filters [New(512, 4)] and [New(1, 1)] return. *)
Definition filter_512_4 : BloomFilter :=
  {| m := 512; k := 4; bits := replicate 8 0 |}.

Definition filter_1_1 : BloomFilter := {| m := 1; k := 1; bits := [0] |}.

(** ** Shape of the word list *)

(** Every word is a [uint64]. *)
Definition words_in_range (bf : BloomFilter) : Prop :=
  Forall U64.in_range (bits bf).

(** No bit is set at position [m] or above. *)
Definition bits_below_m (bf : BloomFilter) : Prop :=
  forall q, 0 <= q -> bit_at (bits bf) q = true -> q < m bf.

(** Membership of a position in a list of positions, as a boolean. *)
Definition among (ps : list Z) (q : Z) : bool := existsb (Z.eqb q) ps.

(** The state a filter made in range is always in. *)
Definition sound (bf : BloomFilter) : Prop :=
  usable bf /\ words_in_range bf /\ bits_below_m bf.

(** ** The inverse of the FNV prime

    [fnv64Prime] is odd, so multiplying by it modulo [2^64] can be undone:
    this is its inverse. *)
Definition fnv64Prime_inverse : Z := 14886173955864302971.

(** ** The mutex-guarded wrapper ([bloom/bloom_safe.go])

    The wrapper as one goroutine sees it.  No other goroutine is there to
    release the mutex, so a [Lock] or [RLock] that has to wait never
    returns. *)

Module Safe.

(** [sync.RWMutex]: whether it is held for writing, and how many read
    locks are held.  The zero value is unlocked. *)
Record RWMutex : Type := mkRWMutex { writer : bool; readers : nat }.

Definition unlocked : RWMutex := {| writer := false; readers := 0 |}.

Record SafeBloom : Type := mkSafeBloom { mu : RWMutex; bf : BloomFilter }.

Definition with_mu (s : SafeBloom) (l : RWMutex) : SafeBloom :=
  {| mu := l; bf := bf s |}.

(** How a call on the wrapper ends: it returns, it panics, it waits for
    the mutex forever, or the run time stops the program because a mutex
    that is not locked was unlocked. *)
Inductive result (A : Type) : Type :=
| Returned (a : A) (s : SafeBloom)
| Panicked (p : panic) (s : SafeBloom)
| Blocked (s : SafeBloom)
| Fatal (s : SafeBloom).
Arguments Returned {A} a s.
Arguments Panicked {A} p s.
Arguments Blocked {A} s.
Arguments Fatal {A} s.

Definition Op (A : Type) : Type := SafeBloom -> result A.

Definition bind {A B : Type} (c : Op A) (f : A -> Op B) : Op B :=
  fun s =>
    match c s with
    | Returned a s' => f a s'
    | Panicked p s' => Panicked p s'
    | Blocked s' => Blocked s'
    | Fatal s' => Fatal s'
    end.

Definition Lock : Op unit := fun s =>
  if writer (mu s) || (0 <? readers (mu s))%nat then Blocked s
  else Returned tt (with_mu s {| writer := true; readers := readers (mu s) |}).

Definition Unlock : Op unit := fun s =>
  if writer (mu s)
  then Returned tt (with_mu s {| writer := false; readers := readers (mu s) |})
  else Fatal s.

Definition RLock : Op unit := fun s =>
  if writer (mu s) then Blocked s
  else Returned tt (with_mu s {| writer := false; readers := S (readers (mu s)) |}).

Definition RUnlock : Op unit := fun s =>
  match readers (mu s) with
  | O => Fatal s
  | S n => Returned tt (with_mu s {| writer := writer (mu s); readers := n |})
  end.

(** A method of the wrapped filter, run on [s.bf]. *)
Definition on_filter {A : Type} (c : M A) : Op A := fun s =>
  match c (bf s) with
  | (Ret a, bf') => Returned a {| mu := mu s; bf := bf' |}
  | (Panic p, bf') => Panicked p {| mu := mu s; bf := bf' |}
  end.

(** [defer d; body]: [d] runs when [body] returns and also when it
    panics; the panic then goes on. *)
Definition defer {A : Type} (d : Op unit) (body : Op A) : Op A := fun s =>
  match body s with
  | Returned a s' =>
      match d s' with
      | Returned _ s'' => Returned a s''
      | Panicked p s'' => Panicked p s''
      | Blocked s'' => Blocked s''
      | Fatal s'' => Fatal s''
      end
  | Panicked p s' =>
      match d s' with
      | Returned _ s'' => Panicked p s''
      | Panicked p' s'' => Panicked p' s''
      | Blocked s'' => Blocked s''
      | Fatal s'' => Fatal s''
      end
  | Blocked s' => Blocked s'
  | Fatal s' => Fatal s'
  end.

Definition NewSafe (m k : Z) : outcome SafeBloom :=
  match New m k with
  | Ret b => Ret {| mu := unlocked; bf := b |}
  | Panic p => Panic p
  end.

Section SafeEstimates.

Variables (math_Log math_Ceil : float -> float).
Variable uint64_of_float64 : float -> Z.

Definition NewSafeWithEstimates (n : Z) (fpRate : float) : outcome SafeBloom :=
  match NewWithEstimates math_Log math_Ceil uint64_of_float64 n fpRate with
  | Ret b => Ret {| mu := unlocked; bf := b |}
  | Panic p => Panic p
  end.

End SafeEstimates.

Definition Add (data : list byte) : Op unit :=
  bind Lock (fun _ =>
  bind (on_filter (Add data)) (fun _ =>
  Unlock)).

Definition MightContain (data : list byte) : Op bool :=
  bind RLock (fun _ =>
  defer RUnlock (on_filter (MightContain data))).

Definition Reset : Op unit :=
  bind Lock (fun _ =>
  bind (on_filter Reset) (fun _ =>
  Unlock)).

Definition Info : Op string :=
  bind RLock (fun _ =>
  defer RUnlock (on_filter Info)).

(** One call on the wrapper, its value dropped. *)
Definition perform (c : call) : Op unit :=
  match c with
  | CallAdd data => Add data
  | CallMightContain data => bind (MightContain data) (fun _ => Returned tt)
  | CallReset => Reset
  | CallInfo => bind Info (fun _ => Returned tt)
  end.

(** A sequence of calls, oldest first; it stops at the first call that
    does not return. *)
Fixpoint perform_all (cs : list call) : Op unit :=
  match cs with
  | [] => Returned tt
  | c :: cs' => bind (perform c) (fun _ => perform_all cs')
  end.

End Safe.

(** ** What a filter holds, read off its history *)

(** The positions probed by the items added since the last [Reset],
    oldest call first. *)
Definition probed_step (bf0 : BloomFilter) (acc : list Z) (c : call) : list Z :=
  match c with
  | CallAdd data => acc ++ probe_positions bf0 data
  | CallReset => []
  | CallMightContain _ | CallInfo => acc
  end.

Definition probed_since_reset (bf0 : BloomFilter) (cs : list call) : list Z :=
  fold_left (probed_step bf0) cs [].

(** ** Decimal digits *)

Definition is_digit (c : Ascii.ascii) : bool :=
  ((48 <=? Ascii.nat_of_ascii c) && (Ascii.nat_of_ascii c <=? 57))%nat.

Fixpoint all_digits (s : string) : bool :=
  match s with
  | EmptyString => true
  | String c s' => is_digit c && all_digits s'
  end.

(** ** The estimate formula over the real numbers *)


(** [c] is the ceiling of the real number [r]. *)
Definition is_ceiling (r : R) (c : Z) : Prop := (IZR c - 1 < r <= IZR c)%R.


Definition formula_k (mm n : Z) (kk : Z) : Prop :=
  exists c, is_ceiling (IZR mm / IZR n * ln 2)%R c /\ kk = Z.max 1 c.

(** * Properties *)

(** ** Unsigned 64-bit arithmetic *)

Module U64Facts.

Lemma modulus_pos : 0 < U64.modulus.
Proof. reflexivity. Qed.

Lemma wrap_range z : U64.in_range (U64.wrap z).
Proof. unfold U64.in_range, U64.wrap. apply Z.mod_pos_bound, modulus_pos. Qed.

Lemma wrap_small z : U64.in_range z -> U64.wrap z = z.
Proof. unfold U64.in_range, U64.wrap. intros H. now apply Z.mod_small. Qed.

Lemma add_range a b : U64.in_range (U64.add a b).
Proof. apply wrap_range. Qed.

Lemma mul_range a b : U64.in_range (U64.mul a b).
Proof. apply wrap_range. Qed.

End U64Facts.

(** ** The hash on known inputs *)

Example fnv64a_empty : fnv64a (bytes "") = 0xcbf29ce484222325.
Proof. reflexivity. Qed.

Example fnv64a_a : fnv64a (bytes "a") = 0xaf63dc4c8601ec8c.
Proof. vm_compute. reflexivity. Qed.

Example fnv64a_foobar : fnv64a (bytes "foobar") = 0x85944171f73967e8.
Proof. vm_compute. reflexivity. Qed.

(** ** The scenarios of the package's tests *)

Example scenario_hello_world :
  let calls := [CallAdd (bytes "hello"); CallAdd (bytes "world")] in
  exists bf0, New 1024 3 = Ret bf0 /\
    fst (MightContain (bytes "hello") (after_all calls bf0)) = Ret true /\
    fst (MightContain (bytes "world") (after_all calls bf0)) = Ret true /\
    fst (MightContain (bytes "hello") (after CallReset (after_all calls bf0)))
    = Ret false.
Proof. eexists. split; [reflexivity|]. vm_compute. repeat split. Qed.

Example scenario_reset :
  exists bf0, New 512 4 = Ret bf0 /\
    fst (MightContain (bytes "foo") (after (CallAdd (bytes "foo")) bf0)) = Ret true /\
    fst (MightContain (bytes "foo")
           (after CallReset (after (CallAdd (bytes "foo")) bf0))) = Ret false.
Proof. eexists. split; [reflexivity|]. vm_compute. repeat split. Qed.

Example scenario_info :
  fst (Info {| m := 1024; k := 3; bits := [] |})
  = Ret "BloomFilter{m=1024 bits, k=3}"%string.
Proof. reflexivity. Qed.

(** ** Words and masks *)

Lemma bit_index_range pos : 0 <= pos mod 64 < 64.
Proof. apply Z.mod_pos_bound. lia. Qed.

Lemma pow2_lt_modulus b : 0 <= b < 64 -> 0 < 2 ^ b < U64.modulus.
Proof.
  intros Hb. unfold U64.modulus. split.
  - apply Z.pow_pos_nonneg; lia.
  - apply Z.pow_lt_mono_r; lia.
Qed.

(** [uint64(1) << bitIndex] is the single-bit mask [2^bitIndex]. *)
Lemma mask_pow2 pos : U64.shl 1 (pos mod 64) = 2 ^ (pos mod 64).
Proof.
  unfold U64.shl. rewrite Z.shiftl_1_l.
  apply U64Facts.wrap_small. unfold U64.in_range.
  pose proof (pow2_lt_modulus (pos mod 64) (bit_index_range pos)). lia.
Qed.

Lemma land_pow2 w b :
  0 <= b -> Z.land w (2 ^ b) = if Z.testbit w b then 2 ^ b else 0.
Proof.
  intros Hb. apply Z.bits_inj'. intros n Hn.
  rewrite Z.land_spec, Z.pow2_bits_eqb by assumption.
  destruct (Z.eqb_spec b n) as [->|Hne].
  - destruct (Z.testbit w n) eqn:E; simpl.
    + now rewrite Z.pow2_bits_eqb, Z.eqb_refl.
    + now rewrite Z.bits_0.
  - rewrite andb_false_r.
    destruct (Z.testbit w b).
    + rewrite Z.pow2_bits_eqb by assumption. symmetry. now apply Z.eqb_neq.
    + now rewrite Z.bits_0.
Qed.

(** The test [(word & mask) != 0] reads one bit of the word. *)
Lemma mask_test w pos :
  negb (Z.land w (U64.shl 1 (pos mod 64)) =? 0) = Z.testbit w (pos mod 64).
Proof.
  pose proof (bit_index_range pos) as Hb.
  rewrite mask_pow2, land_pow2 by lia.
  destruct (Z.testbit w (pos mod 64)); [|reflexivity].
  pose proof (pow2_lt_modulus _ Hb).
  destruct (Z.eqb_spec (2 ^ (pos mod 64)) 0); [lia | reflexivity].
Qed.

Lemma testbit_lor_mask w pos b :
  Z.testbit (Z.lor w (U64.shl 1 (pos mod 64))) b
  = Z.testbit w b || (pos mod 64 =? b).
Proof.
  pose proof (bit_index_range pos).
  rewrite mask_pow2, Z.lor_spec, Z.pow2_bits_eqb by lia. reflexivity.
Qed.

Lemma lor_mask_absorb w pos :
  Z.testbit w (pos mod 64) = true -> Z.lor w (U64.shl 1 (pos mod 64)) = w.
Proof.
  intros Hw. apply Z.bits_inj'. intros n _.
  rewrite testbit_lor_mask.
  destruct (Z.eqb_spec (pos mod 64) n) as [<-|_].
  - now rewrite Hw.
  - now rewrite orb_false_r.
Qed.

(** ** The bounds check *)

Lemma in_bounds_lt i (ws : list Z) :
  in_bounds i ws = true <-> 0 <= i /\ (Z.to_nat i < length ws)%nat.
Proof.
  unfold in_bounds. rewrite andb_true_iff, Z.leb_le, Z.ltb_lt. lia.
Qed.

Lemma in_bounds_lookup i (ws : list Z) :
  in_bounds i ws = true -> exists w, ws !! Z.to_nat i = Some w.
Proof.
  intros H. apply in_bounds_lt in H as [_ H].
  now apply lookup_lt_is_Some in H.
Qed.

Lemma in_bounds_insert i j w (ws : list Z) :
  in_bounds i (<[j := w]> ws) = in_bounds i ws.
Proof. unfold in_bounds. now rewrite length_insert. Qed.

Lemma in_bounds_nil i : in_bounds i [] = false.
Proof. unfold in_bounds. simpl. destruct (0 <=? i) eqn:E; simpl; [|reflexivity]. apply Z.ltb_ge. apply Z.leb_le in E. lia. Qed.

(** ** What [setBit] and [getBit] do *)

Lemma setBit_unfold pos bf :
  setBit pos bf =
  if in_bounds (pos / 64) (bits bf)
  then (Ret tt,
        with_bits bf
          (<[Z.to_nat (pos / 64) :=
               Z.lor (default 0 (bits bf !! Z.to_nat (pos / 64)))
                     (U64.shl 1 (pos mod 64))]> (bits bf)))
  else (Panic (panic_index_out_of_range (pos / 64) (Z.of_nat (length (bits bf)))), bf).
Proof.
  unfold setBit, read_word, write_word, bind, get, ret, raise, put_bits.
  destruct (in_bounds (pos / 64) (bits bf)) eqn:E; cbn; rewrite ?E; reflexivity.
Qed.

Lemma getBit_unfold pos bf :
  getBit pos bf =
  if in_bounds (pos / 64) (bits bf)
  then (Ret (bit_at (bits bf) pos), bf)
  else (Panic (panic_index_out_of_range (pos / 64) (Z.of_nat (length (bits bf)))), bf).
Proof.
  unfold getBit, read_word, bind, get, ret, raise, bit_at.
  destruct (in_bounds (pos / 64) (bits bf)) eqn:E; cbn; rewrite ?E; [|reflexivity].
  now rewrite mask_test.
Qed.

Lemma setBit_m pos bf : m (snd (setBit pos bf)) = m bf.
Proof. rewrite setBit_unfold. now destruct (in_bounds _ _). Qed.

Lemma setBit_k pos bf : k (snd (setBit pos bf)) = k bf.
Proof. rewrite setBit_unfold. now destruct (in_bounds _ _). Qed.

Lemma setBit_length pos bf :
  length (bits (snd (setBit pos bf))) = length (bits bf).
Proof.
  rewrite setBit_unfold. destruct (in_bounds _ _); simpl; [|reflexivity].
  apply length_insert.
Qed.

Lemma getBit_state pos bf : snd (getBit pos bf) = bf.
Proof. rewrite getBit_unfold. now destruct (in_bounds _ _). Qed.

(** A set bit stays set, and the bit just set is set. *)
Lemma bit_at_insert_mono (ws : list Z) pos q :
  bit_at ws q = true ->
  bit_at (<[Z.to_nat (pos / 64) :=
              Z.lor (default 0 (ws !! Z.to_nat (pos / 64)))
                    (U64.shl 1 (pos mod 64))]> ws) q = true.
Proof.
  unfold bit_at. intros Hq.
  destruct (decide (Z.to_nat (pos / 64) = Z.to_nat (q / 64))) as [E|E].
  - rewrite <- E in *.
    destruct (ws !! Z.to_nat (pos / 64)) as [w|] eqn:Hw.
    + rewrite list_lookup_insert_eq by (apply lookup_lt_is_Some; eauto).
      simpl in *. rewrite testbit_lor_mask, Hq. reflexivity.
    + rewrite list_insert_ge by (now apply lookup_ge_None). now rewrite Hw.
  - now rewrite list_lookup_insert_ne.
Qed.

Lemma bit_at_insert_same (ws : list Z) pos :
  in_bounds (pos / 64) ws = true ->
  bit_at (<[Z.to_nat (pos / 64) :=
              Z.lor (default 0 (ws !! Z.to_nat (pos / 64)))
                    (U64.shl 1 (pos mod 64))]> ws) pos = true.
Proof.
  intros Hb. unfold bit_at.
  rewrite list_lookup_insert_eq by (now apply in_bounds_lt in Hb).
  simpl. now rewrite testbit_lor_mask, Z.eqb_refl, orb_true_r.
Qed.

(** Setting a bit that is set changes nothing. *)
Lemma setBit_set pos bf :
  in_bounds (pos / 64) (bits bf) = true ->
  bit_at (bits bf) pos = true ->
  setBit pos bf = (Ret tt, bf).
Proof.
  intros Hb Hs. rewrite setBit_unfold, Hb.
  destruct (in_bounds_lookup _ _ Hb) as [w Hw].
  unfold bit_at in Hs. rewrite Hw in *. simpl in *.
  rewrite lor_mask_absorb by assumption.
  rewrite list_insert_id by assumption.
  now destruct bf.
Qed.

(** ** The loops walk the probe sequence *)

Lemma bind_unfold {A B : Type} (c : M A) (f : A -> M B) bf :
  bind c f bf =
  match c bf with
  | (Ret a, bf') => f a bf'
  | (Panic p, bf') => (Panic p, bf')
  end.
Proof. reflexivity. Qed.

Ltac open_bind := repeat (rewrite bind_unfold; cbn [get]).

Lemma seqZ_succ i n : seqZ i (Z.of_nat (S n)) = i :: seqZ (i + 1) (Z.of_nat n).
Proof.
  rewrite seqZ_cons by lia.
  replace (Z.pred (Z.of_nat (S n))) with (Z.of_nat n) by lia.
  reflexivity.
Qed.

Lemma Add_loop_set_each n : forall i h1 h2 bf,
  Add_loop n i h1 h2 bf
  = set_each (map (probe (m bf) h1 h2) (seqZ i (Z.of_nat n))) bf.
Proof.
  induction n as [|n IH]; intros i h1 h2 bf; [reflexivity|].
  rewrite seqZ_succ. cbn [Add_loop map set_each].
  open_bind.
  pose proof (setBit_m (probe (m bf) h1 h2 i) bf) as Hm.
  destruct (setBit (probe (m bf) h1 h2 i) bf) as [[[]|p] bf1]; [|reflexivity].
  cbn [snd] in Hm. rewrite IH, Hm. reflexivity.
Qed.

Lemma MightContain_loop_test_each n : forall i h1 h2 bf,
  MightContain_loop n i h1 h2 bf
  = test_each (map (probe (m bf) h1 h2) (seqZ i (Z.of_nat n))) bf.
Proof.
  induction n as [|n IH]; intros i h1 h2 bf; [reflexivity|].
  rewrite seqZ_succ. cbn [MightContain_loop map test_each].
  open_bind.
  pose proof (getBit_state (probe (m bf) h1 h2 i) bf) as Hs.
  destruct (getBit (probe (m bf) h1 h2 i) bf) as [[b|p] bf1]; [|reflexivity].
  cbn [snd] in Hs. subst bf1.
  destruct b; cbn [negb]; [apply IH | reflexivity].
Qed.

Lemma seqZ_to_nat i z : seqZ i (Z.of_nat (Z.to_nat z)) = seqZ i z.
Proof. unfold seqZ. now rewrite Nat2Z.id. Qed.

Lemma Add_as_set_each data bf :
  Add data bf = when_initialized (set_each (probe_positions bf data)) bf.
Proof.
  unfold Add, when_initialized, probe_positions. open_bind.
  destruct ((m bf =? 0) || (k bf =? 0)); [reflexivity|].
  destruct (hash128 data) as [h1 h2].
  now rewrite Add_loop_set_each, seqZ_to_nat.
Qed.

Lemma MightContain_as_test_each data bf :
  MightContain data bf = when_initialized (test_each (probe_positions bf data)) bf.
Proof.
  unfold MightContain, when_initialized, probe_positions. open_bind.
  destruct ((m bf =? 0) || (k bf =? 0)); [reflexivity|].
  destruct (hash128 data) as [h1 h2].
  now rewrite MightContain_loop_test_each, seqZ_to_nat.
Qed.

Lemma probe_positions_params bf bf' data :
  m bf' = m bf -> k bf' = k bf ->
  probe_positions bf' data = probe_positions bf data.
Proof. unfold probe_positions. now intros -> ->. Qed.

(** ** Queries leave the filter alone *)

Lemma test_each_state ps bf : snd (test_each ps bf) = bf.
Proof.
  induction ps as [|p ps IH]; [reflexivity|].
  cbn [test_each]. rewrite bind_unfold.
  pose proof (getBit_state p bf) as Hs.
  destruct (getBit p bf) as [[b|e] bf1]; cbn [snd] in *; subst bf1; [|reflexivity].
  destruct b; [apply IH | reflexivity].
Qed.

Lemma MightContain_state data bf : snd (MightContain data bf) = bf.
Proof.
  rewrite MightContain_as_test_each. unfold when_initialized.
  open_bind.
  destruct ((m bf =? 0) || (k bf =? 0)); [reflexivity | apply test_each_state].
Qed.

Lemma Info_state bf : snd (Info bf) = bf.
Proof. reflexivity. Qed.

(** ** What a run of [setBit] leaves behind *)

Lemma in_bounds_length i (ws ws' : list Z) :
  length ws' = length ws -> in_bounds i ws' = in_bounds i ws.
Proof. unfold in_bounds. now intros ->. Qed.

Lemma set_each_effect ps : forall bf bf',
  set_each ps bf = (Ret tt, bf') ->
  m bf' = m bf /\ k bf' = k bf /\
  length (bits bf') = length (bits bf) /\
  (forall q, bit_at (bits bf) q = true -> bit_at (bits bf') q = true) /\
  (forall p, p ∈ ps ->
     in_bounds (p / 64) (bits bf') = true /\ bit_at (bits bf') p = true).
Proof.
  induction ps as [|p ps IH]; intros bf bf' H.
  - cbn in H. injection H as <-. do 3 (split; [reflexivity|]). split; [auto|]. intros q Hq. inversion Hq.
  - cbn [set_each] in H. rewrite bind_unfold, setBit_unfold in H.
    destruct (in_bounds (p / 64) (bits bf)) eqn:Hb; [|discriminate].
    apply IH in H as (Hm & Hk & Hl & Hmono & Hset). cbn in Hm, Hk, Hl.
    rewrite length_insert in Hl.
    do 3 (split; [assumption|]). split.
    + intros q Hq. apply Hmono. cbn. now apply bit_at_insert_mono.
    + intros q Hq. apply elem_of_cons in Hq as [->|Hq]; [|now apply Hset].
      split; [now rewrite (in_bounds_length _ _ _ Hl)|].
      apply Hmono. cbn. now apply bit_at_insert_same.
Qed.

Lemma set_each_noop ps bf :
  (forall p, p ∈ ps ->
     in_bounds (p / 64) (bits bf) = true /\ bit_at (bits bf) p = true) ->
  set_each ps bf = (Ret tt, bf).
Proof.
  induction ps as [|p ps IH]; intros H; [reflexivity|].
  cbn [set_each]. rewrite bind_unfold.
  destruct (H p) as [Hb Hs]; [apply elem_of_cons; now left|].
  rewrite setBit_set by assumption.
  apply IH. intros q Hq. apply H. apply elem_of_cons. now right.
Qed.

Lemma test_each_all_set ps bf :
  (forall p, p ∈ ps ->
     in_bounds (p / 64) (bits bf) = true /\ bit_at (bits bf) p = true) ->
  test_each ps bf = (Ret true, bf).
Proof.
  induction ps as [|p ps IH]; intros H; [reflexivity|].
  cbn [test_each]. rewrite bind_unfold, getBit_unfold.
  destruct (H p) as [Hb Hs]; [apply elem_of_cons; now left|].
  rewrite Hb, Hs. apply IH. intros q Hq. apply H. apply elem_of_cons. now right.
Qed.

Lemma set_each_returns ps : forall bf,
  (forall p, p ∈ ps -> in_bounds (p / 64) (bits bf) = true) ->
  exists bf', set_each ps bf = (Ret tt, bf').
Proof.
  induction ps as [|p ps IH]; intros bf H; [now exists bf|].
  cbn [set_each]. rewrite bind_unfold, setBit_unfold.
  rewrite (H p) by (apply elem_of_cons; now left).
  apply IH. intros q Hq. cbn. rewrite in_bounds_insert.
  apply H. apply elem_of_cons. now right.
Qed.

(** ** [Reset] *)

Lemma Reset_loop_zeroes bf n : forall j (ws : list Z),
  length ws = (j + n)%nat ->
  Reset_loop n (Z.of_nat j) (with_bits bf ws)
  = (Ret tt, with_bits bf (take j ws ++ replicate n 0)).
Proof.
  induction n as [|n IH]; intros j ws Hl.
  - cbn. rewrite take_ge by lia. now rewrite app_nil_r.
  - cbn [Reset_loop]. unfold write_word. open_bind.
    assert (Hb : in_bounds (Z.of_nat j) ws = true).
    { apply in_bounds_lt. rewrite Nat2Z.id. lia. }
    cbn [bits with_bits]. rewrite Hb. unfold put_bits. cbn [with_bits m k bits].
    rewrite Nat2Z.id.
    replace (Z.of_nat j + 1) with (Z.of_nat (S j)) by lia.
    change (with_bits (with_bits bf ws) (<[j:=0]> ws))
      with (with_bits bf (<[j:=0]> ws)).
    rewrite IH by (rewrite length_insert; lia).
    f_equal. f_equal.
    rewrite (take_S_r _ _ 0) by (apply list_lookup_insert_eq; lia).
    rewrite take_insert_ge by lia.
    rewrite <- app_assoc. reflexivity.
Qed.

Lemma Reset_unfold bf :
  Reset bf = (Ret tt, with_bits bf (replicate (length (bits bf)) 0)).
Proof.
  unfold Reset. open_bind.
  replace bf with (with_bits bf (bits bf)) at 2 by now destruct bf.
  change 0 with (Z.of_nat 0) at 1.
  rewrite Reset_loop_zeroes by reflexivity.
  reflexivity.
Qed.

Lemma bit_at_zeroes n pos : bit_at (replicate n 0) pos = false.
Proof.
  unfold bit_at.
  destruct (replicate n 0 !! Z.to_nat (pos / 64)) as [w|] eqn:E; cbn.
  - apply lookup_replicate in E as [-> _]. apply Z.bits_0.
  - apply Z.bits_0.
Qed.

(** ** Positions and word indices *)

Lemma probe_range m0 h1 h2 i : 0 < m0 -> 0 <= probe m0 h1 h2 i < m0.
Proof. intros Hm. unfold probe. now apply Z.mod_pos_bound. Qed.

Lemma covers_in_bounds bf pos :
  covers bf -> 0 <= pos < m bf -> in_bounds (pos / 64) (bits bf) = true.
Proof.
  unfold covers. intros [Hm Hc] Hp.
  apply andb_true_iff. split.
  - apply Z.leb_le. apply Z.div_pos; lia.
  - apply Z.ltb_lt. apply Z.div_lt_upper_bound; lia.
Qed.

Lemma elem_of_probe_positions bf data p :
  p ∈ probe_positions bf data -> 0 < m bf -> 0 <= p < m bf.
Proof.
  unfold probe_positions. destruct (hash128 data) as [h1 h2].
  intros Hp Hm. apply list_elem_of_fmap in Hp as (i & -> & _).
  now apply probe_range.
Qed.

Lemma probe_positions_in_bounds bf data p :
  covers bf -> p ∈ probe_positions bf data ->
  in_bounds (p / 64) (bits bf) = true.
Proof.
  intros Hc Hp. apply covers_in_bounds; [assumption|].
  apply (elem_of_probe_positions bf data); [assumption | apply Hc].
Qed.

Lemma probe_positions_cons bf data :
  0 < k bf -> exists p ps, probe_positions bf data = p :: ps.
Proof.
  intros Hk. unfold probe_positions. destruct (hash128 data) as [h1 h2].
  rewrite seqZ_cons by assumption. cbn. eauto.
Qed.

Lemma initialized bf : 0 < m bf -> 0 < k bf -> (m bf =? 0) || (k bf =? 0) = false.
Proof.
  intros Hm Hk. apply orb_false_iff. split; apply Z.eqb_neq; lia.
Qed.

(** ** [New] *)

Lemma New_returns m0 k0 :
  m0 <> 0 -> k0 <> 0 ->
  New m0 k0 = Ret {| m := m0; k := k0; bits := make (U64.add m0 63 / 64) |}.
Proof.
  intros Hm Hk. unfold New.
  apply Z.eqb_neq in Hm, Hk. now rewrite Hm, Hk.
Qed.

Lemma wordCount_exact m0 :
  0 < m0 <= max_exact_m -> U64.add m0 63 / 64 = (m0 + 63) / 64.
Proof.
  unfold max_exact_m. intros H. unfold U64.add.
  rewrite U64Facts.wrap_small; [reflexivity|]. unfold U64.in_range. lia.
Qed.

Lemma ceiling_minimal m0 : minimal_word_count m0 ((m0 + 63) / 64).
Proof.
  split.
  - pose proof (Z.div_mod (m0 + 63) 64 ltac:(lia)).
    pose proof (Z.mod_pos_bound (m0 + 63) 64 ltac:(lia)). lia.
  - intros w' Hw Hm.
    apply Z.lt_succ_r. apply Z.div_lt_upper_bound; lia.
Qed.

Lemma length_make n : 0 <= n -> Z.of_nat (length (make n)) = n.
Proof. intros Hn. unfold make. rewrite length_replicate. lia. Qed.

(** ** Filters whose word list holds all [m] positions *)

Lemma New_usable m0 k0 bf :
  0 < m0 <= max_exact_m -> 0 < k0 ->
  New m0 k0 = Ret bf ->
  usable bf /\ m bf = m0 /\ k bf = k0 /\
  bits bf = replicate (Z.to_nat ((m0 + 63) / 64)) 0.
Proof.
  intros Hm Hk HN. rewrite New_returns in HN by lia.
  injection HN as <-. rewrite wordCount_exact by assumption.
  unfold usable, covers, make. cbn [m k bits]. rewrite length_replicate.
  destruct (ceiling_minimal m0) as [Hc _].
  assert (0 <= (m0 + 63) / 64) by (apply Z.div_pos; lia).
  repeat split; try lia; reflexivity.
Qed.

Lemma Add_usable data bf :
  usable bf ->
  exists bf',
    Add data bf = (Ret tt, bf') /\
    m bf' = m bf /\ k bf' = k bf /\
    length (bits bf') = length (bits bf) /\
    (forall q, bit_at (bits bf) q = true -> bit_at (bits bf') q = true) /\
    (forall p, p ∈ probe_positions bf data -> bit_at (bits bf') p = true).
Proof.
  intros [Hc Hk].
  rewrite Add_as_set_each. unfold when_initialized. open_bind.
  rewrite initialized by (assumption || apply Hc).
  destruct (set_each_returns (probe_positions bf data) bf) as [bf' H].
  { intros p Hp. now apply (probe_positions_in_bounds bf data). }
  exists bf'. split; [assumption|].
  apply set_each_effect in H as (Hm & Hk' & Hl & Hmono & Hset).
  do 4 (split; [assumption|]). intros p Hp. now apply Hset.
Qed.

Lemma MightContain_usable data bf :
  usable bf ->
  (forall p, p ∈ probe_positions bf data -> bit_at (bits bf) p = true) ->
  MightContain data bf = (Ret true, bf).
Proof.
  intros [Hc Hk] Hset.
  rewrite MightContain_as_test_each. unfold when_initialized. open_bind.
  rewrite initialized by (assumption || apply Hc).
  apply test_each_all_set. intros p Hp. split; [|now apply Hset].
  now apply (probe_positions_in_bounds bf data).
Qed.

(** On an all-zero word list the first probe already fails. *)
Lemma MightContain_zeroes data bf :
  usable bf -> bits bf = replicate (length (bits bf)) 0 ->
  MightContain data bf = (Ret false, bf).
Proof.
  intros [Hc Hk] Hz.
  rewrite MightContain_as_test_each. unfold when_initialized. open_bind.
  rewrite initialized by (assumption || apply Hc).
  destruct (probe_positions_cons bf data Hk) as (p & ps & E).
  assert (Hp : p ∈ probe_positions bf data) by (rewrite E; apply elem_of_cons; now left).
  rewrite E. cbn [test_each]. rewrite bind_unfold, getBit_unfold.
  rewrite (probe_positions_in_bounds bf data) by assumption.
  rewrite Hz, bit_at_zeroes. reflexivity.
Qed.

Lemma usable_params bf bf' :
  usable bf -> m bf' = m bf -> k bf' = k bf ->
  length (bits bf') = length (bits bf) -> usable bf'.
Proof. unfold usable, covers. intros [Hc Hk] -> -> ->. now split. Qed.

Lemma after_usable c bf :
  usable bf ->
  usable (after c bf) /\ m (after c bf) = m bf /\ k (after c bf) = k bf.
Proof.
  intros Hu. destruct c as [data|data| |]; cbn [after].
  - destruct (Add_usable data bf Hu) as (bf' & -> & Hm & Hk & Hl & _).
    cbn [snd]. split; [now apply (usable_params bf)|now split].
  - rewrite MightContain_state. split; [assumption | now split].
  - rewrite Reset_unfold. cbn [snd].
    split; [|now split].
    apply (usable_params bf); try reflexivity; [assumption|].
    cbn. now rewrite length_replicate.
  - rewrite Info_state. split; [assumption | now split].
Qed.

Lemma after_monotone c bf q :
  usable bf -> c <> CallReset ->
  bit_at (bits bf) q = true -> bit_at (bits (after c bf)) q = true.
Proof.
  intros Hu Hc Hq. destruct c as [data|data| |]; cbn [after].
  - destruct (Add_usable data bf Hu) as (bf' & -> & _ & _ & _ & Hmono & _).
    now apply Hmono.
  - now rewrite MightContain_state.
  - contradiction.
  - now rewrite Info_state.
Qed.

Lemma after_all_usable cs : forall bf,
  usable bf ->
  usable (after_all cs bf) /\
  m (after_all cs bf) = m bf /\ k (after_all cs bf) = k bf.
Proof.
  induction cs as [|c cs IH]; intros bf Hu; [split; [assumption | now split]|].
  cbn [after_all fold_left].
  destruct (after_usable c bf Hu) as (Hu' & Hm & Hk).
  destruct (IH _ Hu') as (Hu'' & Hm' & Hk').
  unfold after_all in *. split; [assumption|]. split; congruence.
Qed.

Lemma after_all_monotone cs : forall bf q,
  usable bf -> CallReset ∉ cs ->
  bit_at (bits bf) q = true -> bit_at (bits (after_all cs bf)) q = true.
Proof.
  induction cs as [|c cs IH]; intros bf q Hu Hn Hq; [assumption|].
  cbn [after_all fold_left].
  apply not_elem_of_cons in Hn as [Hc Hn].
  apply IH; [now apply after_usable | assumption |].
  apply after_monotone; auto.
Qed.

Lemma after_all_app cs cs' bf :
  after_all (cs ++ cs') bf = after_all cs' (after_all cs bf).
Proof. unfold after_all. apply fold_left_app. Qed.

(** ** A filter without words *)

Lemma Add_no_words x bf :
  bits bf = [] -> 0 < m bf -> 0 < k bf ->
  exists i, Add x bf = (Panic (panic_index_out_of_range i 0), bf).
Proof.
  intros Hb Hm Hk.
  rewrite Add_as_set_each. unfold when_initialized. open_bind.
  rewrite initialized by assumption.
  destruct (probe_positions_cons bf x Hk) as (p & ps & ->).
  cbn [set_each]. rewrite bind_unfold, setBit_unfold, Hb, in_bounds_nil.
  now exists (p / 64).
Qed.

Lemma MightContain_no_words x bf :
  bits bf = [] -> 0 < m bf -> 0 < k bf ->
  exists i, MightContain x bf = (Panic (panic_index_out_of_range i 0), bf).
Proof.
  intros Hb Hm Hk.
  rewrite MightContain_as_test_each. unfold when_initialized. open_bind.
  rewrite initialized by assumption.
  destruct (probe_positions_cons bf x Hk) as (p & ps & ->).
  cbn [test_each]. rewrite bind_unfold, getBit_unfold, Hb, in_bounds_nil.
  now exists (p / 64).
Qed.

Lemma New_wrapped : New (U64.modulus - 1) 1 = Ret wrapped_filter.
Proof. vm_compute. reflexivity. Qed.

Lemma wrapped_filter_constructed : constructed wrapped_filter.
Proof.
  apply (constructed_New (U64.modulus - 1) 1).
  - unfold U64.in_range, U64.modulus. lia.
  - unfold U64.in_range, U64.modulus. lia.
  - apply New_wrapped.
Qed.

Lemma wrapped_filter_params : 0 < m wrapped_filter /\ 0 < k wrapped_filter.
Proof. split; reflexivity. Qed.

(** ** Membership *)

(** X1: where [m + 63] does not wrap, an item that was added is reported
    present until the next [Reset], whatever else was called before or
    after. *)
Theorem no_false_negatives_exact_m m0 k0 bf0 pre post x :
  0 < m0 <= max_exact_m -> 0 < k0 ->
  New m0 k0 = Ret bf0 ->
  CallReset ∉ post ->
  let bf := after_all (pre ++ CallAdd x :: post) bf0 in
  MightContain x bf = (Ret true, bf).
Proof.
  intros Hm Hk HN Hpost bf.
  destruct (New_usable m0 k0 bf0 Hm Hk HN) as (Hu0 & _).
  subst bf. rewrite after_all_app. cbn [after_all fold_left].
  fold (after_all post (after (CallAdd x) (after_all pre bf0))).
  destruct (after_all_usable pre bf0 Hu0) as (Hu1 & Hm1 & Hk1).
  set (bf1 := after_all pre bf0) in *.
  destruct (after_usable (CallAdd x) bf1 Hu1) as (Hu2 & Hm2 & Hk2).
  destruct (Add_usable x bf1 Hu1) as (bf2 & HA & _ & _ & _ & _ & Hset).
  destruct (after_all_usable post _ Hu2) as (Hu3 & Hm3 & Hk3).
  apply MightContain_usable; [assumption|].
  intros p Hp.
  rewrite (probe_positions_params bf1) in Hp by congruence.
  apply after_all_monotone; [assumption | assumption |].
  cbn [after]. rewrite HA. cbn [snd]. now apply Hset.
Qed.

(** C1, at the filter of [New(18446744073709551615, 1)]: the constructor
    returns a filter with no word, and on it neither [Add] nor the
    [MightContain] that follows returns; both stop at an index that is out
    of range, so the item just added is not reported present. *)
Theorem no_false_negatives_wrapped_m x :
  New (U64.modulus - 1) 1 = Ret wrapped_filter /\
  (exists i, Add x wrapped_filter
             = (Panic (panic_index_out_of_range i 0), wrapped_filter)) /\
  (exists i, MightContain x (after (CallAdd x) wrapped_filter)
             = (Panic (panic_index_out_of_range i 0), wrapped_filter)) /\
  fst (MightContain x (after (CallAdd x) wrapped_filter)) <> Ret true.
Proof.
  destruct wrapped_filter_params as [Hm Hk].
  destruct (Add_no_words x wrapped_filter eq_refl Hm Hk) as [i Hi].
  destruct (MightContain_no_words x wrapped_filter eq_refl Hm Hk) as [j Hj].
  cbn [after]. rewrite Hi. cbn [snd]. rewrite Hj.
  split; [apply New_wrapped|]. split; [eauto|]. split; [eauto|].
  cbn [fst]. discriminate.
Qed.

(** ** Reset *)

(** [Reset] returns and leaves [m] and [k] with a word list of the same
    length, every word zero. *)
Theorem Reset_zeroes_every_word bf :
  exists bf',
    Reset bf = (Ret tt, bf') /\ m bf' = m bf /\ k bf' = k bf /\
    length (bits bf') = length (bits bf) /\
    forall i w, bits bf' !! i = Some w -> w = 0.
Proof.
  exists (with_bits bf (replicate (length (bits bf)) 0)).
  split; [apply Reset_unfold|]. cbn. rewrite length_replicate.
  do 3 (split; [reflexivity|]).
  intros i w H. now apply lookup_replicate in H.
Qed.

Lemma after_zeroed c bf :
  (forall d, c <> CallAdd d) -> zeroed bf -> zeroed (after c bf).
Proof.
  intros Hc Hz. destruct c as [d|d| |]; cbn [after].
  - now destruct (Hc d).
  - now rewrite MightContain_state.
  - rewrite Reset_unfold. unfold zeroed. cbn. now rewrite length_replicate.
  - now rewrite Info_state.
Qed.

Lemma after_all_zeroed qs : forall bf,
  (forall d, CallAdd d ∉ qs) -> zeroed bf -> zeroed (after_all qs bf).
Proof.
  induction qs as [|c qs IH]; intros bf Hq Hz; [assumption|].
  cbn [after_all fold_left]. apply IH.
  - intros d Hd. apply (Hq d). apply elem_of_cons. now right.
  - apply after_zeroed; [|assumption].
    intros d ->. apply (Hq d). apply elem_of_cons. now left.
Qed.

(** C2, as amended: [Reset] sets every word of the bit array to zero (and
    leaves [m] and [k]); consequently, on a filter made by [New(m, k)]
    with [0 < m <= 2^64 - 64] and [k > 0], in any state, [MightContain(x)]
    returns [false] for every [x] after [Reset] provided nothing at all
    was added after the reset. *)
Theorem Reset_then_absent_exact_m m0 k0 bf0 cs x :
  0 < m0 <= max_exact_m -> 0 < k0 ->
  New m0 k0 = Ret bf0 ->
  (exists bf',
     Reset (after_all cs bf0) = (Ret tt, bf') /\
     m bf' = m0 /\ k bf' = k0 /\
     forall i w, bits bf' !! i = Some w -> w = 0) /\
  (forall qs, (forall d, CallAdd d ∉ qs) ->
     MightContain x (after_all (cs ++ CallReset :: qs) bf0)
     = (Ret false, after_all (cs ++ CallReset :: qs) bf0)).
Proof.
  intros Hm Hk HN.
  destruct (New_usable m0 k0 bf0 Hm Hk HN) as (Hu0 & Hm0 & Hk0 & _).
  destruct (after_all_usable cs bf0 Hu0) as (Hu1 & Hm1 & Hk1).
  split.
  - destruct (Reset_zeroes_every_word (after_all cs bf0))
      as (bf' & HR & Hm' & Hk' & _ & Hz).
    exists bf'. split; [assumption|].
    split; [congruence|]. split; [congruence | assumption].
  - intros qs Hq. rewrite after_all_app. cbn [after_all fold_left].
    fold (after_all qs (after CallReset (after_all cs bf0))).
    destruct (after_usable CallReset _ Hu1) as (Hu2 & _).
    destruct (after_all_usable qs _ Hu2) as (Hu3 & _).
    apply MightContain_zeroes; [assumption|].
    apply after_all_zeroed; [assumption|].
    cbn [after]. rewrite Reset_unfold. unfold zeroed. cbn.
    now rewrite length_replicate.
Qed.

(** The amended C2 on the filter of the package's reset test: [New(512, 4)]
    after [Add("foo")]. *)
Lemma Reset_then_absent_witness :
  (0 < 512 <= max_exact_m /\ 0 < 4 /\ New 512 4 = Ret filter_512_4) /\
  (exists bf',
     Reset (after_all [CallAdd (bytes "foo")] filter_512_4) = (Ret tt, bf') /\
     m bf' = 512 /\ k bf' = 4 /\
     forall i w, bits bf' !! i = Some w -> w = 0) /\
  (forall qs, (forall d, CallAdd d ∉ qs) ->
     MightContain (bytes "foo")
       (after_all ([CallAdd (bytes "foo")] ++ CallReset :: qs) filter_512_4)
     = (Ret false,
        after_all ([CallAdd (bytes "foo")] ++ CallReset :: qs) filter_512_4)).
Proof.
  assert (H1 : 0 < 512 <= max_exact_m) by (unfold max_exact_m, U64.modulus; lia).
  assert (H2 : 0 < 4) by lia.
  assert (H3 : New 512 4 = Ret filter_512_4) by reflexivity.
  split; [exact (conj H1 (conj H2 H3))|].
  exact (Reset_then_absent_exact_m 512 4 filter_512_4
           [CallAdd (bytes "foo")] (bytes "foo") H1 H2 H3).
Defined.

(** C2 as the claim words it fails by design: an item that was not added
    again after the reset is reported present once another item has set
    its positions.  With [m = 1] every position is 0: after [Reset] and
    [Add("a")], the query for ["b"] returns [true]. *)
Lemma Reset_then_other_item_present :
  New 1 1 = Ret filter_1_1 /\
  (CallAdd (bytes "b") ∉ [CallAdd (bytes "a")]) /\
  MightContain (bytes "b")
    (after_all [CallReset; CallAdd (bytes "a")] filter_1_1)
  = (Ret true, after_all [CallReset; CallAdd (bytes "a")] filter_1_1).
Proof.
  split; [reflexivity|]. split.
  - intros H. apply list_elem_of_singleton in H. discriminate H.
  - vm_compute. reflexivity.
Qed.

(** On the filter of [New(18446744073709551615, 1)], [Reset] returns
    (there is no word to clear), and the query that follows does not
    return [false]: it stops at an index that is out of range. *)
Lemma Reset_then_MightContain_wrapped_m x :
  constructed wrapped_filter /\
  Reset wrapped_filter = (Ret tt, wrapped_filter) /\
  (exists i, MightContain x (after CallReset wrapped_filter)
             = (Panic (panic_index_out_of_range i 0), wrapped_filter)) /\
  fst (MightContain x (after CallReset wrapped_filter)) <> Ret false.
Proof.
  destruct wrapped_filter_params as [Hm Hk].
  destruct (MightContain_no_words x wrapped_filter eq_refl Hm Hk) as [j Hj].
  split; [apply wrapped_filter_constructed|].
  split; [reflexivity|].
  change (after CallReset wrapped_filter) with wrapped_filter.
  rewrite Hj. split; [eauto | discriminate].
Qed.

(** ** Parameter validation *)

Theorem New_fails_iff m0 k0 :
  fails_with (New m0 k0) InvalidParameter <-> m0 = 0 \/ k0 = 0.
Proof.
  unfold fails_with, New. split.
  - intros (p & H & _).
    destruct (Z.eqb_spec m0 0); [now left|].
    destruct (Z.eqb_spec k0 0); [now right | discriminate].
  - intros [-> | ->].
    + now exists panic_m_zero.
    + destruct (m0 =? 0); [now exists panic_m_zero | now exists panic_k_zero].
Qed.

Theorem New_returns_iff m0 k0 :
  (exists bf, New m0 k0 = Ret bf) <-> m0 <> 0 /\ k0 <> 0.
Proof.
  split.
  - intros [bf H]. unfold New in H.
    destruct (Z.eqb_spec m0 0); [discriminate|].
    destruct (Z.eqb_spec k0 0); [discriminate | now split].
  - intros [Hm Hk]. rewrite New_returns by assumption. eauto.
Qed.

Section EstimatesFacts.

Variables (math_Log math_Ceil : float -> float).
Variable uint64_of_float64 : float -> Z.

Local Abbreviation estimate :=
  (NewWithEstimates math_Log math_Ceil uint64_of_float64).

(** Past its two guards the constructor always reaches [New] with a
    nonzero [m] and a nonzero [k]. *)
Lemma NewWithEstimates_past_guards n fpRate :
  n <> 0 ->
  (fpRate <=? 0)%float || (1 <=? fpRate)%float = false ->
  exists bf, estimate n fpRate = Ret bf.
Proof.
  intros Hn Hg. unfold NewWithEstimates.
  apply Z.eqb_neq in Hn. rewrite Hn, Hg. cbv zeta.
  apply New_returns_iff. split.
  - destruct (Z.eqb_spec (uint64_of_float64
      (math_Ceil (- float64_of_uint64 n * math_Log fpRate / (math_Ln2 * math_Ln2))%float)) 0);
      [discriminate | assumption].
  - match goal with |- (if ?c =? 0 then _ else _) <> 0 =>
      destruct (Z.eqb_spec c 0); [discriminate | assumption] end.
Qed.


(** X14: the constructor fails exactly when [n] is zero or one of the two
    comparisons [fpRate <= 0.0], [fpRate >= 1.0] holds. *)
Theorem NewWithEstimates_fails_iff n fpRate :
  fails_with (estimate n fpRate) InvalidParameter <->
  n = 0 \/ (fpRate <=? 0)%float = true \/ (1 <=? fpRate)%float = true.
Proof.
  split.
  - intros (p & H & _).
    destruct (Z.eq_dec n 0) as [|Hn]; [now left|]. right.
    apply orb_true_iff.
    destruct ((fpRate <=? 0)%float || (1 <=? fpRate)%float) eqn:Hg; [reflexivity|].
    destruct (NewWithEstimates_past_guards n fpRate Hn Hg) as [bf Hbf].
    congruence.
  - intros H. unfold NewWithEstimates.
    destruct (Z.eqb_spec n 0); [now exists panic_n_zero|].
    destruct H as [H|H]; [contradiction|].
    apply orb_true_iff in H. rewrite H. now exists panic_fpRate.
Qed.

(** C3, at [NewWithEstimates(1, NaN)]: NaN is not inside (0, 1), yet both
    comparisons of the guard are false on it, so the constructor does not
    fail with the invalid-parameter panic: it goes on to [New] with a
    nonzero [m] and a nonzero [k]. *)
Theorem NewWithEstimates_NaN_passes_guard :
  (0 <? nan)%float && (nan <? 1)%float = false /\
  (nan <=? 0)%float || (1 <=? nan)%float = false /\
  ~ fails_with (estimate 1 nan) InvalidParameter.
Proof.
  split; [reflexivity|]. split; [reflexivity|].
  destruct (NewWithEstimates_past_guards 1 nan) as [bf H];
  [discriminate | reflexivity |].
  intros (p & Hp & _). congruence.
Qed.

End EstimatesFacts.

(** ** The word count *)

(** X8: where [m + 63] does not wrap, [New] allocates [ceil(m / 64)] zero
    words, the least count whose bits hold [m] positions. *)
Theorem New_wordCount_exact_m m0 k0 bf :
  0 < m0 <= max_exact_m -> 0 < k0 ->
  New m0 k0 = Ret bf ->
  let wordCount := (m0 + 63) / 64 in
  Z.of_nat (length (bits bf)) = wordCount /\
  (forall i w, bits bf !! i = Some w -> w = 0) /\
  minimal_word_count m0 wordCount.
Proof.
  intros Hm Hk HN wordCount.
  destruct (New_usable m0 k0 bf Hm Hk HN) as (_ & _ & _ & Hb).
  assert (0 <= wordCount) by (apply Z.div_pos; lia).
  rewrite Hb, length_replicate. split; [lia|]. split.
  - intros i w H'. now apply lookup_replicate in H'.
  - apply ceiling_minimal.
Qed.

(** C5, at [New(18446744073709551615, 1)]: [m + 63] wraps to 62, so the
    constructor allocates no word at all, where [ceil(m / 64)] is [2^58];
    zero words do not hold [m] positions. *)
Theorem New_wordCount_wrapped_m :
  New (U64.modulus - 1) 1 = Ret wrapped_filter /\
  U64.add (U64.modulus - 1) 63 = 62 /\
  length (bits wrapped_filter) = 0%nat /\
  minimal_word_count (U64.modulus - 1) (2 ^ 58) /\
  ~ minimal_word_count (U64.modulus - 1) 0.
Proof.
  split; [apply New_wrapped|]. split; [reflexivity|]. split; [reflexivity|].
  split.
  - replace (2 ^ 58) with ((U64.modulus - 1 + 63) / 64) by reflexivity.
    apply ceiling_minimal.
  - intros [H _]. revert H. unfold U64.modulus. lia.
Qed.

(** ** One probe sequence for both operations *)

(** C6: [hash128] hashes the same bytes twice, the second time from the
    offset basis xored with the salt; the constant put in place of a zero
    [h2] is nonzero and odd; the probe sequence is
    [(h1 + i*h2) mod m] for [i = 0 .. k-1], sum and product in 64 bits; and
    behind the same guard [Add] sets exactly these positions in order and
    [MightContain] tests exactly these positions in order, stopping at the
    first one that is not set. *)
Theorem Add_MightContain_same_probes data bf :
  hash128 data
  = (fold_left fnv_step data fnv64Offset,
     fold_left fnv_step data (Z.lxor fnv64Offset salt)) /\
  (h2_fallback <> 0 /\ Z.odd h2_fallback = true) /\
  probe_positions bf data
  = (let h1 := fst (hash128 data) in
     let h2 := if snd (hash128 data) =? 0 then h2_fallback else snd (hash128 data) in
     map (fun i => ((h1 + (i * h2) mod 2 ^ 64) mod 2 ^ 64) mod m bf)
         (seqZ 0 (k bf))) /\
  Add data bf = when_initialized (set_each (probe_positions bf data)) bf /\
  MightContain data bf = when_initialized (test_each (probe_positions bf data)) bf.
Proof.
  split; [reflexivity|].
  split; [split; [discriminate | reflexivity]|].
  split; [unfold probe_positions; now destruct (hash128 data)|].
  split; [apply Add_as_set_each | apply MightContain_as_test_each].
Qed.

(** ** Positions and indices *)

(** Every probed position is below [m]. *)
Theorem probe_positions_range bf data :
  0 < m bf -> Forall (fun p => 0 <= p < m bf) (probe_positions bf data).
Proof.
  intros Hm. apply Forall_forall. intros p Hp.
  now apply (elem_of_probe_positions bf data).
Qed.

(** X9: where [m + 63] does not wrap, every probed word index is inside the
    word list, in every state of the filter, and so [Add] and
    [MightContain] return. *)
Theorem indexing_in_bounds_exact_m m0 k0 bf0 cs data :
  0 < m0 <= max_exact_m -> 0 < k0 ->
  New m0 k0 = Ret bf0 ->
  let bf := after_all cs bf0 in
  Forall (fun p => 0 <= p < m bf /\ in_bounds (p / 64) (bits bf) = true)
         (probe_positions bf data) /\
  (exists bf', Add data bf = (Ret tt, bf')) /\
  (exists b, MightContain data bf = (Ret b, bf)).
Proof.
  intros Hm Hk HN bf.
  destruct (New_usable m0 k0 bf0 Hm Hk HN) as (Hu0 & _).
  destruct (after_all_usable cs bf0 Hu0) as (Hu & _). fold bf in Hu.
  assert (Hin : forall p, p ∈ probe_positions bf data ->
                          in_bounds (p / 64) (bits bf) = true).
  { intros p Hp. apply (probe_positions_in_bounds bf data); [apply Hu | assumption]. }
  split; [|split].
  - apply Forall_forall. intros p Hp. split; [|now apply Hin].
    apply (elem_of_probe_positions bf data); [assumption | apply Hu].
  - destruct (Add_usable data bf Hu) as (bf' & H & _). eauto.
  - rewrite MightContain_as_test_each. unfold when_initialized. open_bind.
    rewrite initialized by apply Hu.
    clear -Hin. induction (probe_positions bf data) as [|p ps IH]; [now exists true|].
    cbn [test_each]. rewrite bind_unfold, getBit_unfold.
    rewrite Hin by (apply elem_of_cons; now left).
    destruct (bit_at (bits bf) p); [|now exists false].
    apply IH. intros q Hq. apply Hin. apply elem_of_cons. now right.
Qed.

(** C7, at [New(18446744073709551615, 1)] and the empty input: the one
    probed position is below [m], its word index is [pos / 64], and the
    word list is empty, so [setBit] and [getBit] index out of range. *)
Theorem setBit_getBit_out_of_bounds_wrapped_m :
  let pos := 14695981039346656037 in
  constructed wrapped_filter /\
  probe_positions wrapped_filter [] = [pos] /\
  0 <= pos < m wrapped_filter /\
  setBit pos wrapped_filter
  = (Panic (panic_index_out_of_range (pos / 64) 0), wrapped_filter) /\
  getBit pos wrapped_filter
  = (Panic (panic_index_out_of_range (pos / 64) 0), wrapped_filter).
Proof.
  intros pos.
  split; [apply wrapped_filter_constructed|].
  split; [vm_compute; reflexivity|].
  split; [unfold wrapped_filter, U64.modulus; cbn [m]; lia|].
  split; [now rewrite setBit_unfold | now rewrite getBit_unfold].
Qed.

(** ** Adding twice *)

(** C8: [Add(x)] followed by [Add(x)] ends with the same outcome and in
    the same filter state as a single [Add(x)]. *)
Theorem Add_idempotent data bf :
  (Add data ;;; Add data) bf = Add data bf.
Proof.
  rewrite bind_unfold.
  destruct (Add data bf) as [[[]|p] bf'] eqn:HA; [|reflexivity].
  rewrite Add_as_set_each in HA |- *.
  unfold when_initialized in HA |- *. revert HA. open_bind.
  destruct ((m bf =? 0) || (k bf =? 0)) eqn:Hi; [discriminate|].
  intros HA. apply set_each_effect in HA as (Hm & Hk & _ & _ & Hset).
  rewrite Hm, Hk, Hi.
  rewrite (probe_positions_params bf bf') by assumption.
  now apply set_each_noop.
Qed.

(** ** Queries *)

(** C9: [MightContain] and [Info] end in the filter they started from
    ([m], [k] and every word), so a second [MightContain(x)] right after
    either of them gives the outcome of the first. *)
Theorem queries_leave_filter_unchanged data bf :
  snd (MightContain data bf) = bf /\
  snd (Info bf) = bf /\
  fst (MightContain data (snd (MightContain data bf))) = fst (MightContain data bf) /\
  fst (MightContain data (snd (Info bf))) = fst (MightContain data bf).
Proof.
  rewrite MightContain_state, Info_state. now repeat split.
Qed.

(** ** A fresh filter *)

(** X7: where [m + 63] does not wrap, a filter fresh from [New] answers
    [false] to every query. *)
Theorem fresh_filter_empty_exact_m m0 k0 bf x :
  0 < m0 <= max_exact_m -> 0 < k0 ->
  New m0 k0 = Ret bf ->
  MightContain x bf = (Ret false, bf).
Proof.
  intros Hm Hk HN.
  destruct (New_usable m0 k0 bf Hm Hk HN) as (Hu & _ & _ & Hb).
  apply MightContain_zeroes; [assumption|].
  rewrite Hb at 1. now rewrite Hb, length_replicate.
Qed.

(** C10, at [New(18446744073709551615, 1)]: the fresh filter has no word
    and the first query, whatever the item, stops at an index that is out
    of range instead of returning [false]. *)
Theorem fresh_filter_query_wrapped_m x :
  New (U64.modulus - 1) 1 = Ret wrapped_filter /\
  (exists i, MightContain x wrapped_filter
             = (Panic (panic_index_out_of_range i 0), wrapped_filter)) /\
  fst (MightContain x wrapped_filter) <> Ret false.
Proof.
  destruct wrapped_filter_params as [Hm Hk].
  destruct (MightContain_no_words x wrapped_filter eq_refl Hm Hk) as [j Hj].
  split; [apply New_wrapped|]. rewrite Hj. split; [eauto | discriminate].
Qed.

(** * More of the package *)

(** ** What no method changes *)

Lemma set_each_shape ps : forall bf,
  m (snd (set_each ps bf)) = m bf /\
  k (snd (set_each ps bf)) = k bf /\
  length (bits (snd (set_each ps bf))) = length (bits bf) /\
  forall q, bit_at (bits bf) q = true ->
            bit_at (bits (snd (set_each ps bf))) q = true.
Proof.
  induction ps as [|p ps IH]; intros bf; [now repeat split|].
  cbn [set_each]. rewrite bind_unfold, setBit_unfold.
  destruct (in_bounds (p / 64) (bits bf)) eqn:Hb; [|now repeat split].
  match goal with |- context [set_each ps ?s] =>
    destruct (IH s) as (Hm & Hk & Hl & Hmono);
    destruct (set_each ps s) as [[[]|e] bf'] eqn:E end;
  cbn [snd bits m k with_bits] in *; rewrite length_insert in Hl;
  (do 3 (split; [assumption|])); intros q Hq; apply Hmono;
  now apply bit_at_insert_mono.
Qed.

Lemma Add_shape data bf :
  m (snd (Add data bf)) = m bf /\
  k (snd (Add data bf)) = k bf /\
  length (bits (snd (Add data bf))) = length (bits bf) /\
  forall q, bit_at (bits bf) q = true ->
            bit_at (bits (snd (Add data bf))) q = true.
Proof.
  rewrite Add_as_set_each. unfold when_initialized. open_bind.
  destruct ((m bf =? 0) || (k bf =? 0)); [now repeat split|].
  apply set_each_shape.
Qed.

Lemma after_shape c bf :
  m (after c bf) = m bf /\ k (after c bf) = k bf /\
  length (bits (after c bf)) = length (bits bf).
Proof.
  destruct c as [d|d| |]; cbn [after].
  - destruct (Add_shape d bf) as (Hm & Hk & Hl & _). now repeat split.
  - now rewrite MightContain_state.
  - rewrite Reset_unfold. cbn. now rewrite length_replicate.
  - now rewrite Info_state.
Qed.

Lemma after_keeps_bits c bf q :
  c <> CallReset ->
  bit_at (bits bf) q = true -> bit_at (bits (after c bf)) q = true.
Proof.
  intros Hc Hq. destruct c as [d|d| |]; cbn [after].
  - now apply Add_shape.
  - now rewrite MightContain_state.
  - contradiction.
  - now rewrite Info_state.
Qed.

Lemma after_all_shape cs : forall bf,
  m (after_all cs bf) = m bf /\
  k (after_all cs bf) = k bf /\
  length (bits (after_all cs bf)) = length (bits bf).
Proof.
  induction cs as [|c cs IH]; intros bf; [now repeat split|].
  cbn [after_all fold_left]. fold (after_all cs (after c bf)).
  destruct (IH (after c bf)) as (Hm & Hk & Hl).
  destruct (after_shape c bf) as (Hm' & Hk' & Hl').
  split; [congruence|]. split; congruence.
Qed.

Lemma after_all_keeps_bits cs : forall bf q,
  CallReset ∉ cs ->
  bit_at (bits bf) q = true -> bit_at (bits (after_all cs bf)) q = true.
Proof.
  induction cs as [|c cs IH]; intros bf q Hn Hq; [assumption|].
  cbn [after_all fold_left]. fold (after_all cs (after c bf)).
  apply not_elem_of_cons in Hn as [Hc Hn].
  apply IH; [assumption|]. now apply after_keeps_bits.
Qed.

(** X11: whatever methods are called on a filter, in whatever state and
    whether they return or panic, [m], [k] and the number of words stay
    what they were; and as long as [Reset] is not among the calls, a bit
    that is set stays set. *)
Theorem methods_keep_shape cs bf :
  m (after_all cs bf) = m bf /\
  k (after_all cs bf) = k bf /\
  length (bits (after_all cs bf)) = length (bits bf) /\
  (CallReset ∉ cs ->
   forall q, bit_at (bits bf) q = true ->
             bit_at (bits (after_all cs bf)) q = true).
Proof.
  destruct (after_all_shape cs bf) as (Hm & Hk & Hl).
  do 3 (split; [assumption|]).
  intros Hn q Hq. now apply after_all_keeps_bits.
Qed.

(** ** What a query reads and what an insertion writes *)

Lemma among_elem_of ps q : among ps q = true <-> q ∈ ps.
Proof.
  unfold among. rewrite existsb_exists. split.
  - intros (p & Hp & E). apply Z.eqb_eq in E as ->. now apply list_elem_of_In.
  - intros H. exists q. split; [now apply list_elem_of_In | apply Z.eqb_refl].
Qed.

Lemma test_each_forallb ps bf :
  (forall p, p ∈ ps -> in_bounds (p / 64) (bits bf) = true) ->
  test_each ps bf = (Ret (forallb (bit_at (bits bf)) ps), bf).
Proof.
  induction ps as [|p ps IH]; intros H; [reflexivity|].
  cbn [test_each forallb]. rewrite bind_unfold, getBit_unfold.
  rewrite H by (apply elem_of_cons; now left).
  destruct (bit_at (bits bf) p); [|reflexivity].
  apply IH. intros q Hq. apply H. apply elem_of_cons. now right.
Qed.

Lemma position_split p q :
  0 <= p -> 0 <= q ->
  (Z.to_nat (p / 64) = Z.to_nat (q / 64) /\ p mod 64 = q mod 64) <-> p = q.
Proof.
  intros Hp Hq. split; [|now intros ->].
  intros [Hd Hm].
  assert (0 <= p / 64) by (apply Z.div_pos; lia).
  assert (0 <= q / 64) by (apply Z.div_pos; lia).
  rewrite (Z.div_mod p 64), (Z.div_mod q 64) by lia. lia.
Qed.

(** The bits of a word list after one in-bounds [setBit]. *)
Lemma bit_at_insert (ws : list Z) p q :
  in_bounds (p / 64) ws = true -> 0 <= p -> 0 <= q ->
  bit_at (<[Z.to_nat (p / 64) :=
              Z.lor (default 0 (ws !! Z.to_nat (p / 64)))
                    (U64.shl 1 (p mod 64))]> ws) q
  = bit_at ws q || (q =? p).
Proof.
  intros Hb Hp Hq. unfold bit_at.
  pose proof (position_split p q Hp Hq) as Hs.
  destruct (decide (Z.to_nat (p / 64) = Z.to_nat (q / 64))) as [E|E].
  - rewrite <- E.
    rewrite list_lookup_insert_eq by (now apply in_bounds_lt in Hb).
    simpl. rewrite testbit_lor_mask. f_equal.
    destruct (Z.eqb_spec (p mod 64) (q mod 64)) as [E'|E'];
      destruct (Z.eqb_spec q p) as [E''|E'']; try reflexivity.
    + exfalso. apply E''. symmetry. now apply Hs.
    + subst q. now destruct E'.
  - rewrite list_lookup_insert_ne by assumption.
    destruct (Z.eqb_spec q p) as [->|_]; [now destruct E|].
    now rewrite orb_false_r.
Qed.

Lemma set_each_exact ps : forall bf bf',
  set_each ps bf = (Ret tt, bf') ->
  (forall p, p ∈ ps -> 0 <= p) ->
  forall q, 0 <= q ->
    bit_at (bits bf') q = bit_at (bits bf) q || among ps q.
Proof.
  induction ps as [|p ps IH]; intros bf bf' H Hps q Hq.
  - cbn in H. injection H as <-. cbn. now rewrite orb_false_r.
  - cbn [set_each] in H. rewrite bind_unfold, setBit_unfold in H.
    destruct (in_bounds (p / 64) (bits bf)) eqn:Hb; [|discriminate].
    rewrite (IH _ _ H) by
      (try assumption; intros r Hr; apply Hps, elem_of_cons; now right).
    cbn [bits with_bits].
    rewrite bit_at_insert by
      (try assumption; apply Hps, elem_of_cons; now left).
    cbn [among existsb]. fold (among ps q). now rewrite orb_assoc.
Qed.

Lemma probe_positions_nonneg bf data p :
  0 < m bf -> p ∈ probe_positions bf data -> 0 <= p.
Proof. intros Hm Hp. now apply (elem_of_probe_positions bf data). Qed.

(** X3: on a filter made by [New(m, k)] with [0 < m <= 2^64 - 64] and
    [k > 0], in any state, [MightContain(x)] returns, and returns [true]
    exactly when every position of the probe sequence of [x] has its bit
    set: whether [x] itself was ever added plays no part. *)
Theorem MightContain_reads_probes m0 k0 bf0 cs x :
  0 < m0 <= max_exact_m -> 0 < k0 ->
  New m0 k0 = Ret bf0 ->
  MightContain x (after_all cs bf0)
  = (Ret (forallb (bit_at (bits (after_all cs bf0)))
                  (probe_positions (after_all cs bf0) x)),
     after_all cs bf0).
Proof.
  intros Hm Hk HN.
  destruct (New_usable m0 k0 bf0 Hm Hk HN) as (Hu0 & _).
  destruct (after_all_usable cs bf0 Hu0) as ([Hc Hk'] & _).
  rewrite MightContain_as_test_each. unfold when_initialized. open_bind.
  rewrite initialized by (assumption || apply Hc).
  apply test_each_forallb. intros p Hp.
  now apply (probe_positions_in_bounds _ x).
Qed.

Lemma Add_exact x bf :
  usable bf ->
  exists bf',
    Add x bf = (Ret tt, bf') /\
    m bf' = m bf /\ k bf' = k bf /\
    length (bits bf') = length (bits bf) /\
    forall q, 0 <= q ->
      bit_at (bits bf') q
      = bit_at (bits bf) q || among (probe_positions bf x) q.
Proof.
  intros Hu.
  destruct (Add_usable x _ Hu) as (bf' & HA & Hm & Hk & Hl & _).
  exists bf'. do 4 (split; [assumption|]).
  rewrite Add_as_set_each in HA. unfold when_initialized in HA.
  revert HA. open_bind.
  rewrite initialized by apply Hu.
  intros HA q Hq. apply (set_each_exact _ _ _ HA); [|assumption].
  intros p Hp. apply (probe_positions_nonneg bf x); [apply Hu | assumption].
Qed.

(** X4: on a filter made by [New(m, k)] with [0 < m <= 2^64 - 64] and
    [k > 0], in any state, [Add(x)] returns and sets exactly the bits of
    the probe sequence of [x]: afterwards a position is set if and only if
    it was set before or is one of the probes; no other bit changes. *)
Theorem Add_sets_exactly_probes m0 k0 bf0 cs x :
  0 < m0 <= max_exact_m -> 0 < k0 ->
  New m0 k0 = Ret bf0 ->
  exists bf',
    Add x (after_all cs bf0) = (Ret tt, bf') /\
    forall q, 0 <= q ->
      bit_at (bits bf') q
      = bit_at (bits (after_all cs bf0)) q
        || among (probe_positions (after_all cs bf0) x) q.
Proof.
  intros Hm Hk HN.
  destruct (New_usable m0 k0 bf0 Hm Hk HN) as (Hu0 & _).
  destruct (after_all_usable cs bf0 Hu0) as (Hu & _).
  destruct (Add_exact x _ Hu) as (bf' & HA & _ & _ & _ & Hbits).
  exists bf'. now split.
Qed.

(** ** The invariant of the word list *)

Lemma in_range_high_bits w n :
  U64.in_range w -> 64 <= n -> Z.testbit w n = false.
Proof.
  unfold U64.in_range, U64.modulus. intros [Hw0 Hw] Hn.
  destruct (Z.eq_dec w 0) as [->|Hne]; [apply Z.bits_0|].
  apply Z.bits_above_log2; [assumption|].
  assert (Z.log2 w < 64) by (apply Z.log2_lt_pow2; lia). lia.
Qed.

Lemma lor_in_range a b :
  U64.in_range a -> U64.in_range b -> U64.in_range (Z.lor a b).
Proof.
  unfold U64.in_range, U64.modulus. intros [Ha0 Ha] [Hb0 Hb].
  assert (H0 : 0 <= Z.lor a b) by (apply Z.lor_nonneg; lia).
  split; [assumption|].
  destruct (Z.eq_dec (Z.lor a b) 0) as [->|Hne]; [reflexivity|].
  apply Z.log2_lt_pow2; [lia|].
  rewrite Z.log2_lor by assumption.
  destruct (Z.eq_dec a 0) as [->|Hane], (Z.eq_dec b 0) as [->|Hbne].
  - now destruct Hne.
  - cbn. assert (Z.log2 b < 64) by (apply Z.log2_lt_pow2; lia).
    pose proof (Z.log2_nonneg b). lia.
  - assert (Z.log2 a < 64) by (apply Z.log2_lt_pow2; lia).
    pose proof (Z.log2_nonneg a). cbn. lia.
  - assert (Z.log2 a < 64) by (apply Z.log2_lt_pow2; lia).
    assert (Z.log2 b < 64) by (apply Z.log2_lt_pow2; lia). lia.
Qed.

Lemma mask_in_range pos : U64.in_range (U64.shl 1 (pos mod 64)).
Proof. apply U64Facts.wrap_range. Qed.

Lemma word_default_in_range (ws : list Z) i :
  Forall U64.in_range ws -> U64.in_range (default 0 (ws !! i)).
Proof.
  intros H. destruct (ws !! i) as [w|] eqn:E; cbn.
  - now apply (Forall_lookup_1 _ _ _ _ H E).
  - unfold U64.in_range, U64.modulus. lia.
Qed.

Lemma set_each_words_in_range ps : forall bf,
  words_in_range bf -> words_in_range (snd (set_each ps bf)).
Proof.
  induction ps as [|p ps IH]; intros bf H; [assumption|].
  cbn [set_each]. rewrite bind_unfold, setBit_unfold.
  destruct (in_bounds (p / 64) (bits bf)) eqn:Hb; [|assumption].
  match goal with |- context [set_each ps ?s] =>
    assert (Hs : words_in_range s) end.
  { unfold words_in_range in *. cbn [bits with_bits].
    apply Forall_insert; [assumption|].
    apply lor_in_range; [now apply word_default_in_range | apply mask_in_range]. }
  apply IH in Hs.
  match goal with |- context [set_each ps ?s] =>
    destruct (set_each ps s) as [[[]|e] bf'] end; exact Hs.
Qed.

Lemma Add_words_in_range x bf :
  words_in_range bf -> words_in_range (snd (Add x bf)).
Proof.
  intros H. rewrite Add_as_set_each. unfold when_initialized. open_bind.
  destruct ((m bf =? 0) || (k bf =? 0)); [assumption|].
  now apply set_each_words_in_range.
Qed.

Lemma zeroes_in_range n : Forall U64.in_range (replicate n 0).
Proof.
  apply Forall_replicate. unfold U64.in_range, U64.modulus. lia.
Qed.

Lemma after_sound c bf : sound bf -> sound (after c bf).
Proof.
  intros (Hu & Hw & Hb).
  destruct (after_usable c bf Hu) as (Hu' & Hm & Hk).
  split; [assumption|].
  destruct c as [d|d| |]; cbn [after] in *.
  - split; [now apply Add_words_in_range|].
    destruct (Add_exact d bf Hu) as (bf' & HA & _ & _ & _ & Hbits).
    rewrite HA in *. cbn [snd] in *.
    intros q Hq Hset. rewrite Hbits in Hset by assumption. rewrite Hm.
    apply orb_true_iff in Hset as [Hset|Hset]; [now apply Hb|].
    apply among_elem_of in Hset.
    apply (elem_of_probe_positions bf d); [assumption | apply Hu].
  - rewrite MightContain_state. now split.
  - rewrite Reset_unfold. cbn [snd]. split.
    + unfold words_in_range. cbn. apply zeroes_in_range.
    + intros q _ Hset. cbn in Hset. now rewrite bit_at_zeroes in Hset.
  - rewrite Info_state. now split.
Qed.

Lemma after_all_sound cs : forall bf, sound bf -> sound (after_all cs bf).
Proof.
  induction cs as [|c cs IH]; intros bf H; [assumption|].
  cbn [after_all fold_left]. apply IH. now apply after_sound.
Qed.

Lemma New_sound m0 k0 bf0 :
  0 < m0 <= max_exact_m -> 0 < k0 -> New m0 k0 = Ret bf0 -> sound bf0.
Proof.
  intros Hm Hk HN.
  destruct (New_usable m0 k0 bf0 Hm Hk HN) as (Hu & _ & _ & Hb).
  split; [assumption|]. split.
  - unfold words_in_range. rewrite Hb. apply zeroes_in_range.
  - intros q _ Hset. rewrite Hb in Hset. now rewrite bit_at_zeroes in Hset.
Qed.

(** X10: in every state of a filter made by [New(m, k)] with
    [0 < m <= 2^64 - 64] and [k > 0], the word list holds [ceil(m / 64)]
    words, each below [2^64], and no bit is set at position [m] or above:
    the unused bits of the last word stay zero. *)
Theorem filter_invariant m0 k0 bf0 cs :
  0 < m0 <= max_exact_m -> 0 < k0 ->
  New m0 k0 = Ret bf0 ->
  Z.of_nat (length (bits (after_all cs bf0))) = (m0 + 63) / 64 /\
  Forall (fun w => 0 <= w < 2 ^ 64) (bits (after_all cs bf0)) /\
  forall q, 0 <= q -> bit_at (bits (after_all cs bf0)) q = true -> q < m0.
Proof.
  intros Hm Hk HN.
  destruct (New_usable m0 k0 bf0 Hm Hk HN) as (_ & Hm0 & _ & Hb).
  destruct (after_all_sound cs bf0 (New_sound m0 k0 bf0 Hm Hk HN))
    as (_ & Hw & Hbelow).
  destruct (after_all_shape cs bf0) as (Hm' & _ & Hl).
  split; [|split].
  - rewrite Hl, Hb, length_replicate.
    assert (0 <= (m0 + 63) / 64) by (apply Z.div_pos; lia). lia.
  - exact Hw.
  - intros q Hq Hset. rewrite <- Hm0, <- Hm'. now apply Hbelow.
Qed.

(** ** Order of insertions *)

Lemma words_ext (ws ws' : list Z) :
  length ws = length ws' ->
  Forall U64.in_range ws -> Forall U64.in_range ws' ->
  (forall q, 0 <= q -> bit_at ws q = bit_at ws' q) ->
  ws = ws'.
Proof.
  intros Hl Hr Hr' Hbits. apply list_eq. intros i.
  destruct (ws !! i) as [w|] eqn:E, (ws' !! i) as [w'|] eqn:E'.
  - f_equal. apply Z.bits_inj'. intros n Hn.
    destruct (Z.lt_ge_cases n 64) as [Hlt|Hge].
    + specialize (Hbits (64 * Z.of_nat i + n) ltac:(lia)).
      unfold bit_at in Hbits.
      replace ((64 * Z.of_nat i + n) / 64) with (Z.of_nat i) in Hbits
        by (apply Z.div_unique with n; lia).
      replace ((64 * Z.of_nat i + n) mod 64) with n in Hbits
        by (apply Z.mod_unique with (Z.of_nat i); lia).
      rewrite Nat2Z.id, E, E' in Hbits. exact Hbits.
    + rewrite !in_range_high_bits; try assumption; try reflexivity.
      * now apply (Forall_lookup_1 _ _ _ _ Hr' E').
      * now apply (Forall_lookup_1 _ _ _ _ Hr E).
  - apply lookup_lt_Some in E. apply lookup_ge_None in E'. lia.
  - apply lookup_ge_None in E. apply lookup_lt_Some in E'. lia.
  - reflexivity.
Qed.

(** X5: on a filter made in range, in any state, the order of two
    insertions does not matter: [Add(x); Add(y)] and [Add(y); Add(x)] both
    return and end in the same filter. *)
Theorem Add_commutes m0 k0 bf0 cs x y :
  0 < m0 <= max_exact_m -> 0 < k0 ->
  New m0 k0 = Ret bf0 ->
  (Add x ;;; Add y) (after_all cs bf0) = (Add y ;;; Add x) (after_all cs bf0) /\
  exists bf', (Add x ;;; Add y) (after_all cs bf0) = (Ret tt, bf').
Proof.
  intros Hm Hk HN.
  pose proof (after_all_sound cs bf0 (New_sound m0 k0 bf0 Hm Hk HN)) as Hs.
  set (bf := after_all cs bf0) in *.
  pose proof (after_sound (CallAdd x) bf Hs) as Hsx.
  pose proof (after_sound (CallAdd y) bf Hs) as Hsy.
  pose proof (after_sound (CallAdd y) _ Hsx) as Hsxy.
  pose proof (after_sound (CallAdd x) _ Hsy) as Hsyx.
  cbn [after] in *.
  destruct Hs as (Hu & _).
  destruct (Add_exact x bf Hu) as (b1 & H1 & Hm1 & Hk1 & Hl1 & Hb1).
  destruct (Add_exact y bf Hu) as (b2 & H2 & Hm2 & Hk2 & Hl2 & Hb2).
  rewrite H1 in *. rewrite H2 in *. cbn [snd] in *.
  destruct Hsx as (Hu1 & _). destruct Hsy as (Hu2 & _).
  destruct (Add_exact y b1 Hu1) as (b12 & H12 & Hm12 & Hk12 & Hl12 & Hb12).
  destruct (Add_exact x b2 Hu2) as (b21 & H21 & Hm21 & Hk21 & Hl21 & Hb21).
  rewrite H12 in *. rewrite H21 in *. cbn [snd] in *.
  rewrite !bind_unfold, H1, H2, H12, H21.
  assert (E : b12 = b21).
  { destruct Hsxy as (_ & Hw12 & _), Hsyx as (_ & Hw21 & _).
    assert (Eb : bits b12 = bits b21).
    { apply words_ext; [congruence | assumption | assumption |].
      intros q Hq. rewrite Hb12, Hb21, Hb1, Hb2 by assumption.
      rewrite (probe_positions_params bf b1 y) by assumption.
      rewrite (probe_positions_params bf b2 x) by assumption.
      rewrite <- !orb_assoc. f_equal. apply orb_comm. }
    destruct b12, b21. cbn in *. f_equal; congruence. }
  rewrite E. split; [reflexivity | eauto].
Qed.

(** ** Back to the empty filter *)

(** X6: [Reset] brings a filter made by [New(m, k)] back to exactly the
    value [New(m, k)] returned, whatever was called on it in between. *)
Theorem Reset_restores_New m0 k0 bf0 cs :
  New m0 k0 = Ret bf0 ->
  Reset (after_all cs bf0) = (Ret tt, bf0).
Proof.
  intros HN. rewrite Reset_unfold.
  destruct (after_all_shape cs bf0) as (Hm & Hk & Hl).
  unfold New in HN.
  destruct (m0 =? 0); [discriminate|]. destruct (k0 =? 0); [discriminate|].
  injection HN as <-. cbn [m k bits] in *.
  unfold with_bits. rewrite Hm, Hk, Hl.
  unfold make. now rewrite length_replicate.
Qed.

(** ** Which panics can happen *)

Lemma set_each_panic ps : forall bf p,
  fst (set_each ps bf) = Panic p -> kind_of p = RuntimeError.
Proof.
  induction ps as [|p0 ps IH]; intros bf p H; [discriminate|].
  cbn [set_each] in H. rewrite bind_unfold, setBit_unfold in H.
  destruct (in_bounds (p0 / 64) (bits bf)).
  - now apply IH in H.
  - cbn in H. now injection H as <-.
Qed.

Lemma test_each_panic ps : forall bf p,
  fst (test_each ps bf) = Panic p -> kind_of p = RuntimeError.
Proof.
  induction ps as [|p0 ps IH]; intros bf p H; [discriminate|].
  cbn [test_each] in H. rewrite bind_unfold, getBit_unfold in H.
  destruct (in_bounds (p0 / 64) (bits bf)).
  - destruct (bit_at (bits bf) p0); [now apply IH in H | discriminate].
  - cbn in H. now injection H as <-.
Qed.

Lemma constructed_initialized bf :
  constructed bf -> m bf <> 0 /\ k bf <> 0.
Proof.
  induction 1 as [m0 k0 bf _ _ HN | c bf _ IH].
  - unfold New in HN.
    destruct (Z.eqb_spec m0 0); [discriminate|].
    destruct (Z.eqb_spec k0 0); [discriminate|].
    injection HN as <-. now split.
  - destruct (after_shape c bf) as (-> & -> & _). exact IH.
Qed.

(** X12: on a filter that came from [New] and was only touched through
    its methods, the "filter not initialized" panic of [Add] and
    [MightContain] cannot happen: if either of them panics at all, it is
    with an index out of range.  [Reset] and [Info] never panic. *)
Theorem constructed_never_uninitialized bf x :
  constructed bf ->
  (forall p, fst (Add x bf) = Panic p -> kind_of p = RuntimeError) /\
  (forall p, fst (MightContain x bf) = Panic p -> kind_of p = RuntimeError) /\
  fst (Reset bf) = Ret tt /\
  (exists s, fst (Info bf) = Ret s).
Proof.
  intros Hc. destruct (constructed_initialized bf Hc) as [Hm Hk].
  assert (Hi : (m bf =? 0) || (k bf =? 0) = false).
  { apply orb_false_iff. split; now apply Z.eqb_neq. }
  split; [|split; [|split]].
  - intros p. rewrite Add_as_set_each. unfold when_initialized. open_bind.
    rewrite Hi. apply set_each_panic.
  - intros p. rewrite MightContain_as_test_each. unfold when_initialized.
    open_bind. rewrite Hi. apply test_each_panic.
  - now rewrite Reset_unfold.
  - eexists. reflexivity.
Qed.

(** ** The hash never merges two states *)

Lemma lxor_in_range a b :
  U64.in_range a -> U64.in_range b -> U64.in_range (Z.lxor a b).
Proof.
  unfold U64.in_range, U64.modulus. intros [Ha0 Ha] [Hb0 Hb].
  assert (H0 : 0 <= Z.lxor a b) by (apply Z.lxor_nonneg; lia).
  split; [assumption|].
  destruct (Z.eq_dec (Z.lxor a b) 0) as [->|Hne]; [reflexivity|].
  apply Z.log2_lt_pow2; [lia|].
  pose proof (Z.log2_lxor a b Ha0 Hb0) as Hl.
  assert (Z.log2 a < 64).
  { destruct (Z.eq_dec a 0) as [->|]; [reflexivity | apply Z.log2_lt_pow2; lia]. }
  assert (Z.log2 b < 64).
  { destruct (Z.eq_dec b 0) as [->|]; [reflexivity | apply Z.log2_lt_pow2; lia]. }
  lia.
Qed.

Lemma byte_val_in_range b : U64.in_range (byte_val b).
Proof.
  unfold U64.in_range, U64.modulus, byte_val.
  pose proof (Byte.to_N_bounded b). lia.
Qed.

Lemma byte_val_inj b b' : byte_val b = byte_val b' -> b = b'.
Proof.
  unfold byte_val. intros H. apply N2Z.inj in H.
  pose proof (Byte.of_to_N b) as E. rewrite H, Byte.of_to_N in E.
  now injection E.
Qed.

Lemma fnv_step_in_range h b : U64.in_range (fnv_step h b).
Proof. apply U64Facts.mul_range. Qed.

Lemma fnv_fold_in_range data : forall h,
  U64.in_range h -> U64.in_range (fold_left fnv_step data h).
Proof.
  induction data as [|b data IH]; intros h Hh; [assumption|].
  cbn [fold_left]. apply IH, fnv_step_in_range.
Qed.

Lemma mul_prime_cancel a :
  U64.in_range a -> U64.mul (U64.mul a fnv64Prime) fnv64Prime_inverse = a.
Proof.
  intros Ha. unfold U64.mul, U64.wrap.
  rewrite Z.mul_mod_idemp_l by (unfold U64.modulus; lia).
  rewrite <- Z.mul_assoc.
  rewrite <- Z.mul_mod_idemp_r by (unfold U64.modulus; lia).
  replace ((fnv64Prime * fnv64Prime_inverse) mod U64.modulus) with 1
    by (vm_compute; reflexivity).
  rewrite Z.mul_1_r. now apply Z.mod_small.
Qed.

Lemma lxor_cancel_r a b c : Z.lxor a c = Z.lxor b c -> a = b.
Proof.
  intros H. apply (f_equal (fun z => Z.lxor z c)) in H.
  now rewrite !Z.lxor_assoc, Z.lxor_nilpotent, !Z.lxor_0_r in H.
Qed.

Lemma lxor_cancel_l a b c : Z.lxor c a = Z.lxor c b -> a = b.
Proof. rewrite !(Z.lxor_comm c). apply lxor_cancel_r. Qed.

Lemma fnv_step_unmix h b h' b' :
  U64.in_range h -> U64.in_range h' ->
  fnv_step h b = fnv_step h' b' ->
  Z.lxor h (byte_val b) = Z.lxor h' (byte_val b').
Proof.
  intros Hh Hh' H. unfold fnv_step in H.
  apply (f_equal (fun z => U64.mul z fnv64Prime_inverse)) in H.
  rewrite !mul_prime_cancel in H
    by (apply lxor_in_range; [assumption | apply byte_val_in_range]).
  exact H.
Qed.

Lemma fnv_fold_inj data : forall h h',
  U64.in_range h -> U64.in_range h' ->
  fold_left fnv_step data h = fold_left fnv_step data h' -> h = h'.
Proof.
  induction data as [|b data IH]; intros h h' Hh Hh' H; [assumption|].
  cbn [fold_left] in H.
  apply IH in H; try apply fnv_step_in_range.
  apply fnv_step_unmix in H; try assumption.
  now apply lxor_cancel_r in H.
Qed.

Lemma fnv_fold_substitution h pre post b1 b2 :
  U64.in_range h ->
  fold_left fnv_step (pre ++ b1 :: post) h
  = fold_left fnv_step (pre ++ b2 :: post) h ->
  b1 = b2.
Proof.
  intros Hh H. rewrite !fold_left_app in H. cbn [fold_left] in H.
  pose proof (fnv_fold_in_range pre h Hh) as Hp.
  apply fnv_fold_inj in H; try apply fnv_step_in_range.
  apply fnv_step_unmix in H; try assumption.
  apply lxor_cancel_l in H. now apply byte_val_inj.
Qed.

Lemma offset_in_range : U64.in_range fnv64Offset.
Proof. unfold U64.in_range, U64.modulus, fnv64Offset. lia. Qed.

Lemma salted_offset_in_range : U64.in_range (Z.lxor fnv64Offset salt).
Proof. vm_compute. split; [discriminate | reflexivity]. Qed.

(** X15: two inputs that differ in exactly one byte never collide, under
    either of the two hashes: [fnv64a] (and [fnv64aSalted] with the salt
    of [hash128]) gives them the same value only if the two bytes are the
    same. *)
Theorem one_byte_substitution_never_collides pre post b1 b2 :
  (fnv64a (pre ++ b1 :: post) = fnv64a (pre ++ b2 :: post) <-> b1 = b2) /\
  (fnv64aSalted (pre ++ b1 :: post) salt = fnv64aSalted (pre ++ b2 :: post) salt
   <-> b1 = b2) /\
  (hash128 (pre ++ b1 :: post) = hash128 (pre ++ b2 :: post) <-> b1 = b2).
Proof.
  split; [|split]; (split; [|now intros ->]).
  - apply fnv_fold_substitution, offset_in_range.
  - apply fnv_fold_substitution, salted_offset_in_range.
  - unfold hash128. intros H. injection H as H _.
    revert H. apply fnv_fold_substitution, offset_in_range.
Qed.

(** X17: the two hashes of [hash128] never coincide: whatever the input,
    [h1] and [h2] are different 64-bit values. *)
Theorem hash128_values_differ data :
  (fst (hash128 data) =? snd (hash128 data)) = false.
Proof.
  apply Z.eqb_neq. unfold hash128, fnv64a, fnv64aSalted. cbn [fst snd].
  intros H.
  apply fnv_fold_inj in H; [| apply offset_in_range | apply salted_offset_in_range].
  revert H. vm_compute. discriminate.
Qed.

(** ** The mutex-guarded wrapper *)

Lemma indexing_query_returns data bf :
  usable bf -> exists v, fst (MightContain data bf) = Ret v.
Proof.
  intros Hu. rewrite MightContain_as_test_each. unfold when_initialized.
  open_bind. rewrite initialized by apply Hu.
  rewrite test_each_forallb; [eauto|].
  intros p Hp. apply (probe_positions_in_bounds bf data); [apply Hu | assumption].
Qed.

Lemma Safe_MightContain_unlocked b x :
  Safe.MightContain x {| Safe.mu := Safe.unlocked; Safe.bf := b |}
  = match fst (MightContain x b) with
    | Ret v => Safe.Returned v {| Safe.mu := Safe.unlocked; Safe.bf := b |}
    | Panic p => Safe.Panicked p {| Safe.mu := Safe.unlocked; Safe.bf := b |}
    end.
Proof.
  pose proof (MightContain_state x b) as Hs.
  unfold Safe.MightContain, Safe.bind, Safe.RLock, Safe.defer, Safe.on_filter,
    Safe.RUnlock, Safe.with_mu.
  cbn [Safe.mu Safe.bf Safe.writer Safe.readers Safe.unlocked].
  destruct (MightContain x b) as [[v|p] b']; cbn [fst snd] in *; subst b';
    reflexivity.
Qed.

Lemma Safe_Info_unlocked b :
  exists str,
    fst (Info b) = Ret str /\
    Safe.Info {| Safe.mu := Safe.unlocked; Safe.bf := b |}
    = Safe.Returned str {| Safe.mu := Safe.unlocked; Safe.bf := b |}.
Proof. eexists. split; reflexivity. Qed.

Lemma Safe_Add_unlocked b x :
  Safe.Add x {| Safe.mu := Safe.unlocked; Safe.bf := b |}
  = match Add x b with
    | (Ret _, b') => Safe.Returned tt {| Safe.mu := Safe.unlocked; Safe.bf := b' |}
    | (Panic p, b') =>
        Safe.Panicked p
          {| Safe.mu := {| Safe.writer := true; Safe.readers := 0 |};
             Safe.bf := b' |}
    end.
Proof.
  unfold Safe.Add, Safe.bind, Safe.Lock, Safe.on_filter, Safe.Unlock,
    Safe.with_mu.
  cbn [Safe.mu Safe.bf Safe.writer Safe.readers Safe.unlocked orb Nat.ltb Nat.leb].
  destruct (Add x b) as [[[]|p] b']; reflexivity.
Qed.

Lemma Safe_Reset_unlocked b :
  Safe.Reset {| Safe.mu := Safe.unlocked; Safe.bf := b |}
  = Safe.Returned tt {| Safe.mu := Safe.unlocked; Safe.bf := snd (Reset b) |}.
Proof.
  unfold Safe.Reset, Safe.bind, Safe.Lock, Safe.on_filter, Safe.Unlock,
    Safe.with_mu.
  cbn [Safe.mu Safe.bf Safe.writer Safe.readers Safe.unlocked orb Nat.ltb Nat.leb].
  rewrite Reset_unfold. reflexivity.
Qed.

Lemma Safe_perform_usable c b :
  usable b ->
  Safe.perform c {| Safe.mu := Safe.unlocked; Safe.bf := b |}
  = Safe.Returned tt {| Safe.mu := Safe.unlocked; Safe.bf := after c b |}.
Proof.
  intros Hu. destruct c as [d|d| |]; cbn [Safe.perform after].
  - rewrite Safe_Add_unlocked.
    destruct (Add_usable d b Hu) as (b' & -> & _). reflexivity.
  - unfold Safe.bind at 1. rewrite Safe_MightContain_unlocked.
    rewrite MightContain_state.
    destruct (indexing_query_returns d b Hu) as [v ->]. reflexivity.
  - apply Safe_Reset_unlocked.
  - reflexivity.
Qed.

Lemma Safe_perform_all_usable cs : forall b,
  usable b ->
  Safe.perform_all cs {| Safe.mu := Safe.unlocked; Safe.bf := b |}
  = Safe.Returned tt {| Safe.mu := Safe.unlocked; Safe.bf := after_all cs b |}.
Proof.
  induction cs as [|c cs IH]; intros b Hu; [reflexivity|].
  cbn [Safe.perform_all after_all fold_left]. unfold Safe.bind at 1.
  rewrite Safe_perform_usable by assumption.
  apply IH. now apply after_usable.
Qed.

(** X19: a wrapper made by [NewSafe(m, k)] with [0 < m <= 2^64 - 64] and
    [k > 0], used by one goroutine: every sequence of calls returns, call
    after call, leaves the mutex unlocked, and leaves the wrapped filter
    in the state the same calls give on the bare filter; a query on it
    then returns what the bare filter answers. *)
Theorem Safe_agrees_with_core m0 k0 s0 cs x :
  0 < m0 <= max_exact_m -> 0 < k0 ->
  Safe.NewSafe m0 k0 = Ret s0 ->
  let s := {| Safe.mu := Safe.unlocked;
              Safe.bf := after_all cs (Safe.bf s0) |} in
  Safe.perform_all cs s0 = Safe.Returned tt s /\
  exists v,
    fst (MightContain x (after_all cs (Safe.bf s0))) = Ret v /\
    Safe.MightContain x s = Safe.Returned v s.
Proof.
  intros Hm Hk HN s. unfold Safe.NewSafe in HN.
  destruct (New m0 k0) as [b0|p] eqn:E; [|discriminate].
  injection HN as <-. cbn [Safe.bf] in *.
  destruct (New_usable m0 k0 b0 Hm Hk E) as (Hu0 & _).
  destruct (after_all_usable cs b0 Hu0) as (Hu & _).
  split; [now apply Safe_perform_all_usable|].
  destruct (indexing_query_returns x _ Hu) as [v Hv].
  exists v. split; [assumption|].
  subst s. now rewrite Safe_MightContain_unlocked, Hv.
Qed.

(** X20: [SafeBloom.Add] unlocks without [defer].  If the [Add] of the
    wrapped filter panics, the panic leaves the wrapper with its mutex
    still held for writing, and from then on every call of every method
    of the wrapper waits for the mutex forever. *)
Theorem Safe_Add_panic_keeps_lock b x p :
  fst (Add x b) = Panic p ->
  exists s',
    Safe.Add x {| Safe.mu := Safe.unlocked; Safe.bf := b |} = Safe.Panicked p s' /\
    Safe.mu s' = {| Safe.writer := true; Safe.readers := 0 |} /\
    forall c, Safe.perform c s' = Safe.Blocked s'.
Proof.
  intros H. rewrite Safe_Add_unlocked.
  destruct (Add x b) as [[[]|p'] b']; [discriminate|].
  cbn [fst] in H. injection H as ->.
  eexists. split; [reflexivity|]. split; [reflexivity|].
  intros [d|d| |]; reflexivity.
Qed.

(** X21: [SafeBloom.MightContain] and [SafeBloom.Info] unlock with
    [defer]: called on an unlocked wrapper they give the outcome of the
    wrapped filter's method, panic included, and leave the wrapper as it
    was, mutex unlocked and filter untouched.  [SafeBloom.Reset] always
    returns with the mutex unlocked. *)
Theorem Safe_queries_release_lock b x :
  let s := {| Safe.mu := Safe.unlocked; Safe.bf := b |} in
  Safe.MightContain x s
  = match fst (MightContain x b) with
    | Ret v => Safe.Returned v s
    | Panic p => Safe.Panicked p s
    end /\
  (exists str, fst (Info b) = Ret str /\ Safe.Info s = Safe.Returned str s) /\
  Safe.Reset s
  = Safe.Returned tt {| Safe.mu := Safe.unlocked; Safe.bf := snd (Reset b) |}.
Proof.
  intros s. split; [apply Safe_MightContain_unlocked|].
  split; [apply Safe_Info_unlocked | apply Safe_Reset_unlocked].
Qed.

(** ** The filter as a set of probed positions *)

Lemma among_app ps ps' q : among (ps ++ ps') q = among ps q || among ps' q.
Proof. unfold among. apply existsb_app. Qed.

Lemma after_holds bf0 c bf acc :
  usable bf -> m bf = m bf0 -> k bf = k bf0 ->
  (forall q, 0 <= q -> bit_at (bits bf) q = among acc q) ->
  forall q, 0 <= q ->
    bit_at (bits (after c bf)) q = among (probed_step bf0 acc c) q.
Proof.
  intros Hu Hm Hk Hacc q Hq. destruct c as [d|d| |]; cbn [after probed_step].
  - destruct (Add_exact d bf Hu) as (bf' & -> & _ & _ & _ & Hbits).
    cbn [snd]. rewrite Hbits, among_app, Hacc by assumption.
    now rewrite (probe_positions_params bf0 bf d).
  - rewrite MightContain_state. now apply Hacc.
  - rewrite Reset_unfold. cbn. apply bit_at_zeroes.
  - rewrite Info_state. now apply Hacc.
Qed.

Lemma after_all_holds bf0 cs : forall bf acc,
  usable bf -> m bf = m bf0 -> k bf = k bf0 ->
  (forall q, 0 <= q -> bit_at (bits bf) q = among acc q) ->
  forall q, 0 <= q ->
    bit_at (bits (after_all cs bf)) q
    = among (fold_left (probed_step bf0) cs acc) q.
Proof.
  induction cs as [|c cs IH]; intros bf acc Hu Hm Hk Hacc q Hq.
  - now apply Hacc.
  - cbn [after_all fold_left]. fold (after_all cs (after c bf)).
    destruct (after_usable c bf Hu) as (Hu' & Hm' & Hk').
    apply IH; try assumption; try congruence.
    now apply after_holds.
Qed.

Lemma forallb_agree (f g : Z -> bool) ps :
  (forall p, p ∈ ps -> f p = g p) -> forallb f ps = forallb g ps.
Proof.
  induction ps as [|p ps IH]; intros H; [reflexivity|].
  cbn [forallb]. rewrite H by (apply elem_of_cons; now left).
  f_equal. apply IH. intros q Hq. apply H. apply elem_of_cons. now right.
Qed.

(** X2: what a filter made in range answers is fixed by the items added
    since the last [Reset]: a bit is set exactly when its position is one
    of their probe positions, and [MightContain(y)] returns [true] exactly
    when every probe position of [y] is among them. *)
Theorem filter_holds_probed_positions m0 k0 bf0 cs y :
  0 < m0 <= max_exact_m -> 0 < k0 ->
  New m0 k0 = Ret bf0 ->
  (forall q, 0 <= q ->
     bit_at (bits (after_all cs bf0)) q = among (probed_since_reset bf0 cs) q) /\
  MightContain y (after_all cs bf0)
  = (Ret (forallb (among (probed_since_reset bf0 cs)) (probe_positions bf0 y)),
     after_all cs bf0).
Proof.
  intros Hm Hk HN.
  destruct (New_usable m0 k0 bf0 Hm Hk HN) as (Hu0 & _ & _ & Hb).
  assert (Hbits : forall q, 0 <= q ->
            bit_at (bits (after_all cs bf0)) q
            = among (probed_since_reset bf0 cs) q).
  { apply after_all_holds; try assumption; try reflexivity.
    intros q _. rewrite Hb. apply bit_at_zeroes. }
  split; [assumption|].
  destruct (after_all_usable cs bf0 Hu0) as (Hu & Hm' & Hk').
  rewrite MightContain_as_test_each. unfold when_initialized. open_bind.
  rewrite initialized by apply Hu.
  rewrite test_each_forallb
    by (intros p Hp; apply (probe_positions_in_bounds (after_all cs bf0) y);
        [apply Hu | assumption]).
  rewrite (probe_positions_params bf0 _ y) by assumption.
  f_equal. f_equal. apply forallb_agree.
  intros p Hp. apply Hbits.
  apply (probe_positions_nonneg bf0 y); [apply Hu0 | assumption].
Qed.

(** ** Above the largest exact [m] *)

Ltac modulus_lia :=
  unfold max_exact_m in *;
  change U64.modulus with 18446744073709551616 in *; lia.

Lemma wordCount_wrapped m0 :
  max_exact_m < m0 < U64.modulus -> U64.add m0 63 / 64 = 0.
Proof.
  intros H. unfold U64.add, U64.wrap.
  replace (m0 + 63) with ((m0 + 63 - U64.modulus) + 1 * U64.modulus) by lia.
  rewrite Z.mod_add by modulus_lia.
  rewrite Z.mod_small by modulus_lia.
  apply Z.div_small. modulus_lia.
Qed.

(** X13: for every [m] from [2^64 - 63] to [2^64 - 1] (and [k > 0])
    [New(m, k)] returns a filter with no word at all, and on it every
    [Add] and every [MightContain] panics with an index out of range,
    whatever was called before. *)
Theorem New_above_max_exact_m m0 k0 bf0 cs x :
  max_exact_m < m0 < U64.modulus -> 0 < k0 ->
  New m0 k0 = Ret bf0 ->
  bits bf0 = [] /\
  after_all cs bf0 = bf0 /\
  (exists i, Add x (after_all cs bf0)
             = (Panic (panic_index_out_of_range i 0), bf0)) /\
  (exists i, MightContain x (after_all cs bf0)
             = (Panic (panic_index_out_of_range i 0), bf0)).
Proof.
  intros Hm Hk HN.
  assert (0 < m0) by (revert Hm; modulus_lia).
  rewrite New_returns in HN by lia. injection HN as <-.
  rewrite wordCount_wrapped by assumption.
  change (make 0) with (@nil Z).
  set (bf0 := {| m := m0; k := k0; bits := [] |}).
  assert (Hm0 : 0 < m bf0) by (cbn; lia).
  assert (Hk0 : 0 < k bf0) by (cbn; lia).
  assert (Hfix : forall c, after c bf0 = bf0).
  { intros [d|d| |]; cbn [after].
    - destruct (Add_no_words d bf0 eq_refl Hm0 Hk0) as [i ->]. reflexivity.
    - apply MightContain_state.
    - reflexivity.
    - reflexivity. }
  assert (Hall : after_all cs bf0 = bf0).
  { induction cs as [|c cs IH]; [reflexivity|].
    cbn [after_all fold_left]. now rewrite Hfix. }
  rewrite Hall. split; [reflexivity|]. split; [reflexivity|]. split.
  - apply Add_no_words; [reflexivity | assumption | assumption].
  - apply MightContain_no_words; [reflexivity | assumption | assumption].
Qed.

(** ** A common suffix *)

(** X16: appending the same bytes to two inputs neither creates nor
    removes a collision of [fnv64a]: the extended inputs collide exactly
    when the two inputs did. *)
Theorem common_suffix_collisions x y suffix :
  fnv64a (x ++ suffix) = fnv64a (y ++ suffix) <-> fnv64a x = fnv64a y.
Proof.
  unfold fnv64a. rewrite !fold_left_app. split.
  - apply fnv_fold_inj; apply fnv_fold_in_range, offset_in_range.
  - now intros ->.
Qed.

(** ** What [Info] shows *)

Lemma all_digits_uint d : all_digits (NilEmpty.string_of_uint d) = true.
Proof. induction d; cbn [NilEmpty.string_of_uint all_digits]; auto. Qed.

Lemma all_digits_decimal z : all_digits (decimal z) = true.
Proof.
  unfold decimal, NilZero.string_of_uint.
  destruct (N.to_uint (Z.to_N z)) eqn:E; try reflexivity;
    rewrite <- E; rewrite E; apply all_digits_uint.
Qed.

Lemma digits_then_other a : forall a' c r c' r',
  all_digits a = true -> all_digits a' = true ->
  is_digit c = false -> is_digit c' = false ->
  (a ++ String c r)%string = (a' ++ String c' r')%string ->
  a = a' /\ r = r'.
Proof.
  induction a as [|x a IH]; intros [|x' a'] c r c' r' Ha Ha' Hc Hc' H;
    cbn in H, Ha, Ha'.
  - injection H as _ ->. now split.
  - injection H as -> _. apply andb_true_iff in Ha' as [Hx _]. congruence.
  - injection H as -> _. apply andb_true_iff in Ha as [Hx _]. congruence.
  - injection H as -> H.
    apply andb_true_iff in Ha as [_ Ha]. apply andb_true_iff in Ha' as [_ Ha'].
    destruct (IH _ _ _ _ _ Ha Ha' Hc Hc' H) as [-> ->]. now split.
Qed.

Lemma to_uint_nonnil n : N.to_uint n <> Decimal.Nil.
Proof.
  destruct n as [|p]; [discriminate|].
  apply DecimalPos.Unsigned.to_uint_nonnil.
Qed.

Lemma decimal_inj z z' : 0 <= z -> 0 <= z' -> decimal z = decimal z' -> z = z'.
Proof.
  unfold decimal. intros Hz Hz' H.
  apply (f_equal NilZero.uint_of_string) in H.
  rewrite !NilZero.usu in H by apply to_uint_nonnil.
  injection H as H. apply DecimalN.Unsigned.to_uint_inj in H.
  now apply Z2N.inj.
Qed.

(** X18: the string of [Info] determines [m] and [k]: two filters (with
    [m] and [k] unsigned) whose [Info] strings are equal have the same
    [m] and the same [k]. *)
Theorem Info_determines_m_and_k bf bf' :
  0 <= m bf -> 0 <= k bf -> 0 <= m bf' -> 0 <= k bf' ->
  fst (Info bf) = fst (Info bf') ->
  m bf = m bf' /\ k bf = k bf'.
Proof.
  intros Hm Hk Hm' Hk' H. unfold Info in H. cbn [bind get ret fst] in H.
  injection H as H.
  apply digits_then_other in H as [Hdm H];
    try apply all_digits_decimal; try reflexivity.
  cbn in H. injection H as H.
  apply digits_then_other in H as [Hdk _];
    try apply all_digits_decimal; try reflexivity.
  split; now apply decimal_inj.
Qed.

(** * The properties above on concrete filters *)

Lemma filter_512_4_made :
  0 < 512 <= max_exact_m /\ 0 < 4 /\ New 512 4 = Ret filter_512_4.
Proof.
  split; [unfold max_exact_m, U64.modulus; lia|]. split; [lia | reflexivity].
Defined.

(** X3 on [New(512, 4)] after [Add("foo")], queried for ["bar"]. *)
Lemma MightContain_reads_probes_witness :
  (0 < 512 <= max_exact_m /\ 0 < 4 /\ New 512 4 = Ret filter_512_4) /\
  MightContain (bytes "bar") (after_all [CallAdd (bytes "foo")] filter_512_4)
  = (Ret (forallb
            (bit_at (bits (after_all [CallAdd (bytes "foo")] filter_512_4)))
            (probe_positions (after_all [CallAdd (bytes "foo")] filter_512_4)
                             (bytes "bar"))),
     after_all [CallAdd (bytes "foo")] filter_512_4).
Proof.
  split; [exact filter_512_4_made|].
  exact (MightContain_reads_probes 512 4 filter_512_4
           [CallAdd (bytes "foo")] (bytes "bar")
           (proj1 filter_512_4_made)
           (proj1 (proj2 filter_512_4_made))
           (proj2 (proj2 filter_512_4_made))).
Defined.

(** X4 on [New(512, 4)] after [Add("foo")], adding ["bar"]. *)
Lemma Add_sets_exactly_probes_witness :
  (0 < 512 <= max_exact_m /\ 0 < 4 /\ New 512 4 = Ret filter_512_4) /\
  exists bf',
    Add (bytes "bar") (after_all [CallAdd (bytes "foo")] filter_512_4)
    = (Ret tt, bf') /\
    forall q, 0 <= q ->
      bit_at (bits bf') q
      = bit_at (bits (after_all [CallAdd (bytes "foo")] filter_512_4)) q
        || among (probe_positions
                    (after_all [CallAdd (bytes "foo")] filter_512_4)
                    (bytes "bar")) q.
Proof.
  split; [exact filter_512_4_made|].
  exact (Add_sets_exactly_probes 512 4 filter_512_4
           [CallAdd (bytes "foo")] (bytes "bar")
           (proj1 filter_512_4_made)
           (proj1 (proj2 filter_512_4_made))
           (proj2 (proj2 filter_512_4_made))).
Defined.

(** X10 on [New(512, 4)] after [Add("foo")]. *)
Lemma filter_invariant_witness :
  (0 < 512 <= max_exact_m /\ 0 < 4 /\ New 512 4 = Ret filter_512_4) /\
  Z.of_nat (length (bits (after_all [CallAdd (bytes "foo")] filter_512_4)))
  = (512 + 63) / 64 /\
  Forall (fun w => 0 <= w < 2 ^ 64)
         (bits (after_all [CallAdd (bytes "foo")] filter_512_4)) /\
  forall q, 0 <= q ->
    bit_at (bits (after_all [CallAdd (bytes "foo")] filter_512_4)) q = true ->
    q < 512.
Proof.
  split; [exact filter_512_4_made|].
  exact (filter_invariant 512 4 filter_512_4 [CallAdd (bytes "foo")]
           (proj1 filter_512_4_made)
           (proj1 (proj2 filter_512_4_made))
           (proj2 (proj2 filter_512_4_made))).
Defined.

(** X5 on [New(512, 4)]: ["foo"] then ["bar"], and ["bar"] then ["foo"]. *)
Lemma Add_commutes_witness :
  (0 < 512 <= max_exact_m /\ 0 < 4 /\ New 512 4 = Ret filter_512_4) /\
  (Add (bytes "foo") ;;; Add (bytes "bar")) (after_all [] filter_512_4)
  = (Add (bytes "bar") ;;; Add (bytes "foo")) (after_all [] filter_512_4) /\
  exists bf',
    (Add (bytes "foo") ;;; Add (bytes "bar")) (after_all [] filter_512_4)
    = (Ret tt, bf').
Proof.
  split; [exact filter_512_4_made|].
  exact (Add_commutes 512 4 filter_512_4 [] (bytes "foo") (bytes "bar")
           (proj1 filter_512_4_made)
           (proj1 (proj2 filter_512_4_made))
           (proj2 (proj2 filter_512_4_made))).
Defined.

(** X6 on [New(512, 4)] after [Add("foo")] and a query. *)
Lemma Reset_restores_New_witness :
  New 512 4 = Ret filter_512_4 /\
  Reset (after_all [CallAdd (bytes "foo"); CallMightContain (bytes "foo")]
                   filter_512_4)
  = (Ret tt, filter_512_4).
Proof.
  split; [exact (proj2 (proj2 filter_512_4_made))|].
  exact (Reset_restores_New 512 4 filter_512_4
           [CallAdd (bytes "foo"); CallMightContain (bytes "foo")]
           (proj2 (proj2 filter_512_4_made))).
Defined.

(** X12 on the filter of [New(18446744073709551615, 1)], where [Add] does
    panic. *)
Lemma constructed_never_uninitialized_witness :
  constructed wrapped_filter /\
  (forall p, fst (Add [] wrapped_filter) = Panic p -> kind_of p = RuntimeError) /\
  (forall p, fst (MightContain [] wrapped_filter) = Panic p ->
             kind_of p = RuntimeError) /\
  fst (Reset wrapped_filter) = Ret tt /\
  (exists s, fst (Info wrapped_filter) = Ret s).
Proof.
  split; [exact wrapped_filter_constructed|].
  exact (constructed_never_uninitialized wrapped_filter []
           wrapped_filter_constructed).
Defined.

(** X19 on [NewSafe(512, 4)] after [Add("foo")], queried for ["foo"]. *)
Lemma Safe_agrees_with_core_witness :
  (0 < 512 <= max_exact_m /\ 0 < 4 /\
   Safe.NewSafe 512 4
   = Ret {| Safe.mu := Safe.unlocked; Safe.bf := filter_512_4 |}) /\
  Safe.perform_all [CallAdd (bytes "foo")]
    {| Safe.mu := Safe.unlocked; Safe.bf := filter_512_4 |}
  = Safe.Returned tt
      {| Safe.mu := Safe.unlocked;
         Safe.bf := after_all [CallAdd (bytes "foo")] filter_512_4 |} /\
  exists v,
    fst (MightContain (bytes "foo")
           (after_all [CallAdd (bytes "foo")] filter_512_4)) = Ret v /\
    Safe.MightContain (bytes "foo")
      {| Safe.mu := Safe.unlocked;
         Safe.bf := after_all [CallAdd (bytes "foo")] filter_512_4 |}
    = Safe.Returned v
        {| Safe.mu := Safe.unlocked;
           Safe.bf := after_all [CallAdd (bytes "foo")] filter_512_4 |}.
Proof.
  assert (HN : Safe.NewSafe 512 4
               = Ret {| Safe.mu := Safe.unlocked; Safe.bf := filter_512_4 |})
    by reflexivity.
  split; [exact (conj (proj1 filter_512_4_made)
                      (conj (proj1 (proj2 filter_512_4_made)) HN))|].
  exact (Safe_agrees_with_core 512 4
           {| Safe.mu := Safe.unlocked; Safe.bf := filter_512_4 |}
           [CallAdd (bytes "foo")] (bytes "foo")
           (proj1 filter_512_4_made)
           (proj1 (proj2 filter_512_4_made)) HN).
Defined.

(** X20 on the wrapper of [NewSafe(18446744073709551615, 1)], adding the
    empty input. *)
Lemma Safe_Add_panic_keeps_lock_witness :
  fst (Add [] wrapped_filter)
  = Panic (panic_index_out_of_range 229624703739791500 0) /\
  exists s',
    Safe.Add [] {| Safe.mu := Safe.unlocked; Safe.bf := wrapped_filter |}
    = Safe.Panicked (panic_index_out_of_range 229624703739791500 0) s' /\
    Safe.mu s' = {| Safe.writer := true; Safe.readers := 0 |} /\
    forall c, Safe.perform c s' = Safe.Blocked s'.
Proof.
  assert (H : fst (Add [] wrapped_filter)
              = Panic (panic_index_out_of_range 229624703739791500 0))
    by (vm_compute; reflexivity).
  split; [exact H|].
  exact (Safe_Add_panic_keeps_lock wrapped_filter []
           (panic_index_out_of_range 229624703739791500 0) H).
Defined.

(** X1 on [New(512, 4)]: ["foo"] added after ["bar"], queried later. *)
Lemma no_false_negatives_exact_m_witness :
  (0 < 512 <= max_exact_m /\ 0 < 4 /\ New 512 4 = Ret filter_512_4 /\
   (CallReset ∉ [CallInfo; CallAdd (bytes "baz")])) /\
  MightContain (bytes "foo")
    (after_all ([CallAdd (bytes "bar")] ++ CallAdd (bytes "foo")
                  :: [CallInfo; CallAdd (bytes "baz")]) filter_512_4)
  = (Ret true,
     after_all ([CallAdd (bytes "bar")] ++ CallAdd (bytes "foo")
                  :: [CallInfo; CallAdd (bytes "baz")]) filter_512_4).
Proof.
  assert (Hn : CallReset ∉ [CallInfo; CallAdd (bytes "baz")]).
  { intros H. apply elem_of_cons in H as [H|H]; [discriminate|].
    apply list_elem_of_singleton in H. discriminate. }
  split; [exact (conj (proj1 filter_512_4_made)
                  (conj (proj1 (proj2 filter_512_4_made))
                    (conj (proj2 (proj2 filter_512_4_made)) Hn)))|].
  exact (no_false_negatives_exact_m 512 4 filter_512_4
           [CallAdd (bytes "bar")] [CallInfo; CallAdd (bytes "baz")]
           (bytes "foo")
           (proj1 filter_512_4_made)
           (proj1 (proj2 filter_512_4_made))
           (proj2 (proj2 filter_512_4_made)) Hn).
Defined.

(** X8 on [New(512, 4)]. *)
Lemma New_wordCount_exact_m_witness :
  (0 < 512 <= max_exact_m /\ 0 < 4 /\ New 512 4 = Ret filter_512_4) /\
  Z.of_nat (length (bits filter_512_4)) = (512 + 63) / 64 /\
  (forall i w, bits filter_512_4 !! i = Some w -> w = 0) /\
  minimal_word_count 512 ((512 + 63) / 64).
Proof.
  split; [exact filter_512_4_made|].
  exact (New_wordCount_exact_m 512 4 filter_512_4
           (proj1 filter_512_4_made)
           (proj1 (proj2 filter_512_4_made))
           (proj2 (proj2 filter_512_4_made))).
Defined.

(** X9 on [New(512, 4)] after [Add("foo")], for the input ["bar"]. *)
Lemma indexing_in_bounds_exact_m_witness :
  (0 < 512 <= max_exact_m /\ 0 < 4 /\ New 512 4 = Ret filter_512_4) /\
  Forall (fun p =>
            0 <= p < m (after_all [CallAdd (bytes "foo")] filter_512_4) /\
            in_bounds (p / 64)
              (bits (after_all [CallAdd (bytes "foo")] filter_512_4)) = true)
         (probe_positions (after_all [CallAdd (bytes "foo")] filter_512_4)
                          (bytes "bar")) /\
  (exists bf',
     Add (bytes "bar") (after_all [CallAdd (bytes "foo")] filter_512_4)
     = (Ret tt, bf')) /\
  (exists b,
     MightContain (bytes "bar") (after_all [CallAdd (bytes "foo")] filter_512_4)
     = (Ret b, after_all [CallAdd (bytes "foo")] filter_512_4)).
Proof.
  split; [exact filter_512_4_made|].
  exact (indexing_in_bounds_exact_m 512 4 filter_512_4
           [CallAdd (bytes "foo")] (bytes "bar")
           (proj1 filter_512_4_made)
           (proj1 (proj2 filter_512_4_made))
           (proj2 (proj2 filter_512_4_made))).
Defined.

(** X7 on [New(512, 4)], queried for ["foo"]. *)
Lemma fresh_filter_empty_exact_m_witness :
  (0 < 512 <= max_exact_m /\ 0 < 4 /\ New 512 4 = Ret filter_512_4) /\
  MightContain (bytes "foo") filter_512_4 = (Ret false, filter_512_4).
Proof.
  split; [exact filter_512_4_made|].
  exact (fresh_filter_empty_exact_m 512 4 filter_512_4 (bytes "foo")
           (proj1 filter_512_4_made)
           (proj1 (proj2 filter_512_4_made))
           (proj2 (proj2 filter_512_4_made))).
Defined.

(** X2 on [New(512, 4)] after [Add("foo")], [Reset], [Add("bar")]. *)
Lemma filter_holds_probed_positions_witness :
  (0 < 512 <= max_exact_m /\ 0 < 4 /\ New 512 4 = Ret filter_512_4) /\
  (forall q, 0 <= q ->
     bit_at (bits (after_all [CallAdd (bytes "foo"); CallReset;
                              CallAdd (bytes "bar")] filter_512_4)) q
     = among (probed_since_reset filter_512_4
                [CallAdd (bytes "foo"); CallReset; CallAdd (bytes "bar")]) q) /\
  MightContain (bytes "foo")
    (after_all [CallAdd (bytes "foo"); CallReset; CallAdd (bytes "bar")]
               filter_512_4)
  = (Ret (forallb
            (among (probed_since_reset filter_512_4
                      [CallAdd (bytes "foo"); CallReset; CallAdd (bytes "bar")]))
            (probe_positions filter_512_4 (bytes "foo"))),
     after_all [CallAdd (bytes "foo"); CallReset; CallAdd (bytes "bar")]
               filter_512_4).
Proof.
  split; [exact filter_512_4_made|].
  exact (filter_holds_probed_positions 512 4 filter_512_4
           [CallAdd (bytes "foo"); CallReset; CallAdd (bytes "bar")]
           (bytes "foo")
           (proj1 filter_512_4_made)
           (proj1 (proj2 filter_512_4_made))
           (proj2 (proj2 filter_512_4_made))).
Defined.

(** X13 at [New(18446744073709551615, 1)]. *)
Lemma New_above_max_exact_m_witness :
  (max_exact_m < U64.modulus - 1 < U64.modulus /\ 0 < 1 /\
   New (U64.modulus - 1) 1 = Ret wrapped_filter) /\
  bits wrapped_filter = [] /\
  after_all [CallAdd (bytes "foo")] wrapped_filter = wrapped_filter /\
  (exists i, Add (bytes "foo") (after_all [CallAdd (bytes "foo")] wrapped_filter)
             = (Panic (panic_index_out_of_range i 0), wrapped_filter)) /\
  (exists i, MightContain (bytes "foo")
               (after_all [CallAdd (bytes "foo")] wrapped_filter)
             = (Panic (panic_index_out_of_range i 0), wrapped_filter)).
Proof.
  assert (H1 : max_exact_m < U64.modulus - 1 < U64.modulus)
    by (unfold max_exact_m, U64.modulus; lia).
  assert (H2 : 0 < 1) by lia.
  split; [exact (conj H1 (conj H2 New_wrapped))|].
  exact (New_above_max_exact_m (U64.modulus - 1) 1 wrapped_filter
           [CallAdd (bytes "foo")] (bytes "foo") H1 H2 New_wrapped).
Defined.

(** X18 on two filters with the same [m] and [k] and different bits. *)
Lemma Info_determines_m_and_k_witness :
  (0 <= 512 /\ 0 <= 4 /\
   fst (Info filter_512_4)
   = fst (Info (after (CallAdd (bytes "foo")) filter_512_4))) /\
  m filter_512_4 = m (after (CallAdd (bytes "foo")) filter_512_4) /\
  k filter_512_4 = k (after (CallAdd (bytes "foo")) filter_512_4).
Proof.
  assert (Hm : 0 <= m filter_512_4) by (cbn; lia).
  assert (Hk : 0 <= k filter_512_4) by (cbn; lia).
  assert (Hm' : 0 <= m (after (CallAdd (bytes "foo")) filter_512_4))
    by (vm_compute; discriminate).
  assert (Hk' : 0 <= k (after (CallAdd (bytes "foo")) filter_512_4))
    by (vm_compute; discriminate).
  assert (HI : fst (Info filter_512_4)
               = fst (Info (after (CallAdd (bytes "foo")) filter_512_4)))
    by (vm_compute; reflexivity).
  split; [exact (conj Hm (conj Hk HI))|].
  exact (Info_determines_m_and_k filter_512_4
           (after (CallAdd (bytes "foo")) filter_512_4) Hm Hk Hm' Hk' HI).
Defined.

(** * The estimate formula *)

(** ** Comparisons of [float64] *)




(** ** The two clamped conversions *)






(** ** The real formula against the range of [uint64] *)







